(** * Singleton scope demos: the shared-memory logger and the lock-file guard

    A shallow embedding of
    - [process_scope/shared_memory/shm_logger.{hpp,cpp}]: the lazily
      initialised [ProcessLogger] living in a POSIX shared-memory object, and
    - [os_scope/singleton_daemon.cpp]: the machine-wide [flock] guard.

    Pointers and file descriptors are integers ([Z]); [nullptr] is [0] and
    [MAP_FAILED] is [-1].  The kernel's answers to system calls are an
    explicit oracle argument.  Everything a run makes visible (system calls,
    [perror], [std::cout], constructor runs) is appended to a trace. *)

From stdpp Require Import base tactics option strings numbers relations list.

Module ShmLogger.

(** ** Data model *)

(** [process_logger.hpp]: the payload only stores [const char* tag_], the
    address of the string it was built with, not the string. *)
Record ProcessLogger := { tag_ : Z }.

(** A string literal of a loaded image: where the loader has put it, and
    its text. *)
Record Literal := lit { lit_addr : Z; lit_text : string }.

(** What evaluating the placement-new expression of a mapper does: build a
    logger from a string literal of the mapper's image, or leave by an
    exception.  The repository's own expression is
    [ProcessLogger("shared_memory")], which cannot throw. *)
Inductive Constructor :=
| Build (tag : Literal)
| Throw.

(** The repository's expression in a copy of the code whose literal the
    loader has put at [at_]; two copies in one process have it at different
    addresses.  The examples use a copy with the literal at [0x402000] and
    a second one with the literal at [0x602000]. *)
Definition shared_memory_ctor_at (at_ : Z) : Constructor :=
  Build (lit at_ "shared_memory").

Definition shared_memory_ctor : Constructor := shared_memory_ctor_at 4202496.
Definition shared_memory_ctor_2 : Constructor := shared_memory_ctor_at 6299648.

Definition nonthrowing (c : Constructor) : bool :=
  match c with Build _ => true | Throw => false end.

(** [shm_logger.hpp], [struct ShmBlock]: the atomic flag and the storage
    buffer.  [storage] is [None] while no object has been constructed in
    the buffer (all-zero bytes). *)
Record ShmBlock := {
  initialized : bool;
  storage : option ProcessLogger
}.

Definition zero_block : ShmBlock := {| initialized := false; storage := None |}.

(** Layout of [ShmBlock]: the flag at offset 0, [alignas(64) char storage[256]]. *)
Definition storage_offset : Z := 64.
Definition sizeof_ShmBlock : Z := 320.

Definition nullptr : Z := 0.
Definition MAP_FAILED : Z := -1.

(** The kernel object behind [SHM_NAME = "/process_scope_logger"]. *)
Record ShmObject := {
  shm_size : Z;
  shm_block : ShmBlock
}.

Inductive Event :=
| ev_shm_open (fd : Z)
| ev_ftruncate (fd ret : Z)
| ev_mmap (fd addr : Z)
| ev_close (fd : Z)
| ev_munmap (addr : Z)
| ev_shm_unlink
| ev_perror (msg : string)
| ev_abort
| ev_cout_mapped (addr : Z)
| ev_cout_initializing
| ev_cout_already_initialized
| ev_ctor (tag : string) (this : Z)
| ev_dtor (this : Z).

(** Kernel object, the process's live mappings of it (base addresses), and
    the history of events. *)
Record World := {
  shm : option ShmObject;
  vm : list Z;
  trace : list Event
}.

(** [std::once_flag]: untouched, an active execution in progress, or done. *)
Inductive OnceFlag := OnceFresh | OnceRunning | OnceDone.

(** The statics of one loaded copy of [shm_logger.cpp], together with the
    constructor expression compiled into it. *)
Record Mapper := {
  g_block : Z;
  g_init_flag : OnceFlag;
  payload_ctor : Constructor
}.

Definition fresh_mapper (c : Constructor) : Mapper :=
  {| g_block := nullptr; g_init_flag := OnceFresh; payload_ctor := c |}.

(** The kernel's answers to the three system calls of [init_shm_block]. *)
Record OS := {
  os_shm_open : Z;
  os_ftruncate : Z;
  os_mmap : Z
}.

(** How a call of [get_shm_logger] ends. [Blocks]: the caller waits in
    [std::call_once] for an active execution. *)
Inductive Outcome :=
| Returns (ref : Z)
| NullBlockDeref
| Aborts
| Throws
| Blocks.

#[global] Instance Literal_eq_dec : EqDecision Literal.
Proof. solve_decision. Defined.
#[global] Instance Constructor_eq_dec : EqDecision Constructor.
Proof. solve_decision. Defined.
#[global] Instance ProcessLogger_eq_dec : EqDecision ProcessLogger.
Proof. solve_decision. Defined.
#[global] Instance OnceFlag_eq_dec : EqDecision OnceFlag.
Proof. solve_decision. Defined.
#[global] Instance Outcome_eq_dec : EqDecision Outcome.
Proof. solve_decision. Defined.
#[global] Instance Event_eq_dec : EqDecision Event.
Proof. solve_decision. Defined.

(** ** State updates *)

Definition emit (evs : list Event) (w : World) : World :=
  {| shm := shm w; vm := vm w; trace := trace w ++ evs |}.

Definition set_g_block (a : Z) (m : Mapper) : Mapper :=
  {| g_block := a; g_init_flag := g_init_flag m; payload_ctor := payload_ctor m |}.

Definition set_once (f : OnceFlag) (m : Mapper) : Mapper :=
  {| g_block := g_block m; g_init_flag := f; payload_ctor := payload_ctor m |}.

(** The block as seen through a mapping. *)
Definition region (w : World) : ShmBlock :=
  match shm w with
  | Some o => shm_block o
  | None => zero_block
  end.

Definition set_region (b : ShmBlock) (w : World) : World :=
  {| shm := match shm w with
            | Some o => Some {| shm_size := shm_size o; shm_block := b |}
            | None => None
            end;
     vm := vm w; trace := trace w |}.

(** [shm_open(SHM_NAME, O_CREAT | O_RDWR, 0666)] succeeding: an absent
    object is created empty; an existing one is opened as it is. *)
Definition sys_shm_open (w : World) : World :=
  {| shm := Some (match shm w with
                  | Some o => o
                  | None => {| shm_size := 0; shm_block := zero_block |}
                  end);
     vm := vm w; trace := trace w |}.

(** [ftruncate(fd, sizeof(ShmBlock))] succeeding; new bytes read as zero,
    and the block is zero until somebody writes it. *)
Definition sys_ftruncate (w : World) : World :=
  {| shm := match shm w with
            | Some o => Some {| shm_size := sizeof_ShmBlock; shm_block := shm_block o |}
            | None => None
            end;
     vm := vm w; trace := trace w |}.

Definition sys_mmap (addr : Z) (w : World) : World :=
  {| shm := shm w; vm := addr :: vm w; trace := trace w |}.

Definition sys_munmap (addr : Z) (w : World) : World :=
  {| shm := shm w;
     vm := filter (λ b, b ≠ addr) (vm w);
     trace := trace w |}.

(** ** The statements of [init_shm_block], one definition each *)

(** [compare_exchange_strong(expected = false, true)] on the flag. *)
Definition cas_initialized (w : World) : bool * World :=
  if initialized (region w) then (false, w)
  else (true, set_region {| initialized := true; storage := storage (region w) |} w).

(** [new (g_block->storage) ProcessLogger(tag)]: the constructor stores the
    pointer and prints the text it points to. *)
Definition placement_new (tag : Literal) (this : Z) (w : World) : World :=
  emit [ev_ctor (lit_text tag) this]
    (set_region {| initialized := initialized (region w);
                   storage := Some {| tag_ := lit_addr tag |} |} w).

(** ** [init_shm_block], [get_shm_logger], [cleanup_shm_logger] *)

Inductive InitResult := InitDone | InitAbort | InitThrow.

Definition init_shm_block (o : OS) (m : Mapper) (w : World)
  : InitResult * Mapper * World :=
  let fd := os_shm_open o in
  if bool_decide (fd < 0)%Z then
    (InitAbort, m, emit [ev_shm_open fd; ev_perror "shm_open failed"; ev_abort] w)
  else
  let w := emit [ev_shm_open fd] (sys_shm_open w) in
  if bool_decide (os_ftruncate o < 0)%Z then
    (InitAbort, m,
     emit [ev_ftruncate fd (os_ftruncate o); ev_perror "ftruncate failed";
           ev_close fd; ev_abort] w)
  else
  let w := emit [ev_ftruncate fd (os_ftruncate o)] (sys_ftruncate w) in
  let addr := os_mmap o in
  if bool_decide (addr = MAP_FAILED) then
    (InitAbort, m,
     emit [ev_mmap fd addr; ev_close fd; ev_perror "mmap failed"; ev_abort] w)
  else
  let w := emit [ev_mmap fd addr; ev_close fd] (sys_mmap addr w) in
  let m := set_g_block addr m in
  let w := emit [ev_cout_mapped (g_block m)] w in
  match cas_initialized w with
  | (true, w) =>
      let w := emit [ev_cout_initializing] w in
      match payload_ctor m with
      | Build tag => (InitDone, m, placement_new tag (g_block m + storage_offset) w)
      | Throw => (InitThrow, m, w)
      end
  | (false, w) => (InitDone, m, emit [ev_cout_already_initialized] w)
  end.

(** [*reinterpret_cast<ProcessLogger*>(g_block->storage)] *)
Definition deref_storage (m : Mapper) : Outcome :=
  if bool_decide (g_block m = nullptr) then NullBlockDeref
  else Returns (g_block m + storage_offset).

(** [std::call_once(g_init_flag, init_shm_block)] followed by the return
    expression.  An exception leaving the callable leaves the flag unset. *)
Definition get_shm_logger (o : OS) (m : Mapper) (w : World)
  : Outcome * Mapper * World :=
  match g_init_flag m with
  | OnceDone => (deref_storage m, m, w)
  | OnceRunning => (Blocks, m, w)
  | OnceFresh =>
      match init_shm_block o (set_once OnceRunning m) w with
      | (InitDone, m', w') =>
          let m'' := set_once OnceDone m' in (deref_storage m'', m'', w')
      | (InitAbort, m', w') => (Aborts, m', w')
      | (InitThrow, m', w') => (Throws, set_once OnceFresh m', w')
      end
  end.

Definition cleanup_shm_logger (m : Mapper) (w : World) : Mapper * World :=
  if bool_decide (g_block m ≠ nullptr) then
    (set_g_block nullptr m, emit [ev_munmap (g_block m)] (sys_munmap (g_block m) w))
  else (m, w).

(** ** Observations *)

Definition is_ctor (e : Event) : bool :=
  match e with ev_ctor _ _ => true | _ => false end.

(** Number of payload constructions recorded in a history. *)
Definition constructions (w : World) : nat :=
  length (filter (λ e, is_ctor e = true) (trace w)).

(** The offset inside the shared object that a virtual address refers to,
    according to the live mappings. *)
Definition in_mapping (ref base : Z) : Prop :=
  (base ≤ ref ∧ ref < base + sizeof_ShmBlock)%Z.

Definition resolve (w : World) (ref : Z) : option Z :=
  match list_find (in_mapping ref) (vm w) with
  | Some (_, base) => Some (ref - base)%Z
  | None => None
  end.

Definition fresh_world : World := {| shm := None; vm := []; trace := [] |}.

Definition os_ok (fd addr : Z) : OS :=
  {| os_shm_open := fd; os_ftruncate := 0; os_mmap := addr |}.

(** ** Small-step semantics of [get_shm_logger] for several threads

    A thread is at one of the statements below; every step performs one
    access to the shared state.  [pc_exit] is the end of the call. *)
Inductive PC :=
| pc_call_once
| pc_shm_open
| pc_ftruncate (fd : Z)
| pc_mmap (fd : Z)
| pc_store_block (addr : Z)
| pc_cas
| pc_construct
| pc_init_return
| pc_return
| pc_exit (out : Outcome).

#[global] Instance PC_eq_dec : EqDecision PC.
Proof. solve_decision. Defined.

(** One step of a thread of mapper [m]; [None] when the thread cannot move
    (it waits in [call_once], or its call is over). *)
Definition thread_step (o : OS) (w : World) (m : Mapper) (pc : PC)
  : option (World * Mapper * PC) :=
  match pc with
  | pc_call_once =>
      match g_init_flag m with
      | OnceDone => Some (w, m, pc_return)
      | OnceFresh => Some (w, set_once OnceRunning m, pc_shm_open)
      | OnceRunning => None
      end
  | pc_shm_open =>
      let fd := os_shm_open o in
      if bool_decide (fd < 0)%Z then
        Some (emit [ev_shm_open fd; ev_perror "shm_open failed"; ev_abort] w,
              m, pc_exit Aborts)
      else Some (emit [ev_shm_open fd] (sys_shm_open w), m, pc_ftruncate fd)
  | pc_ftruncate fd =>
      if bool_decide (os_ftruncate o < 0)%Z then
        Some (emit [ev_ftruncate fd (os_ftruncate o); ev_perror "ftruncate failed";
                    ev_close fd; ev_abort] w,
              m, pc_exit Aborts)
      else Some (emit [ev_ftruncate fd (os_ftruncate o)] (sys_ftruncate w), m, pc_mmap fd)
  | pc_mmap fd =>
      let addr := os_mmap o in
      if bool_decide (addr = MAP_FAILED) then
        Some (emit [ev_mmap fd addr; ev_close fd; ev_perror "mmap failed"; ev_abort] w,
              m, pc_exit Aborts)
      else Some (emit [ev_mmap fd addr; ev_close fd] (sys_mmap addr w),
                 m, pc_store_block addr)
  | pc_store_block addr =>
      Some (emit [ev_cout_mapped addr] w, set_g_block addr m, pc_cas)
  | pc_cas =>
      match cas_initialized w with
      | (true, w') => Some (emit [ev_cout_initializing] w', m, pc_construct)
      | (false, w') => Some (emit [ev_cout_already_initialized] w', m, pc_init_return)
      end
  | pc_construct =>
      match payload_ctor m with
      | Build tag =>
          Some (placement_new tag (g_block m + storage_offset) w, m, pc_init_return)
      | Throw => Some (w, set_once OnceFresh m, pc_exit Throws)
      end
  | pc_init_return => Some (w, set_once OnceDone m, pc_return)
  | pc_return => Some (w, m, pc_exit (deref_storage m))
  | pc_exit _ => None
  end.

(** A whole call by a thread that runs alone. *)
Fixpoint run_thread (fuel : nat) (o : OS) (w : World) (m : Mapper) (pc : PC)
  : World * Mapper * PC :=
  match fuel with
  | O => (w, m, pc)
  | S fuel' =>
      match thread_step o w m pc with
      | Some (w', m', pc') => run_thread fuel' o w' m' pc'
      | None => (w, m, pc)
      end
  end.

Record Thread := { t_mapper : nat; t_pc : PC }.

(** One process: the world, the loaded mappers and the threads calling
    [get_shm_logger]; [halted] after [std::abort]. *)
Record System := {
  world : World;
  mappers : list Mapper;
  threads : list Thread;
  halted : bool
}.

(** What [mmap(nullptr, ...)] can answer: failure, or a non-null range
    disjoint from the live mappings. *)
Definition mmap_plausible (w : World) (o : OS) : Prop :=
  os_mmap o = MAP_FAILED ∨
  (0 < os_mmap o)%Z ∧
  Forall (λ b, (os_mmap o + sizeof_ShmBlock ≤ b ∨ b + sizeof_ShmBlock ≤ os_mmap o)%Z) (vm w).

(** The kernel's answer must be possible for the call the thread is about
    to make. *)
Definition kernel_allows (w : World) (o : OS) (pc : PC) : Prop :=
  match pc with
  | pc_mmap _ => mmap_plausible w o
  | _ => True
  end.

#[global] Instance kernel_allows_dec w o pc : Decision (kernel_allows w o pc).
Proof. destruct pc; unfold kernel_allows, mmap_plausible; apply _. Defined.

(** The scheduler picks thread [i]; the kernel answers [o]. *)
Definition sys_step (i : nat) (o : OS) (s : System) : option System :=
  if halted s then None
  else
    match threads s !! i with
    | Some t =>
        match mappers s !! t_mapper t with
        | Some m =>
            if bool_decide (kernel_allows (world s) o (t_pc t)) then
              match thread_step o (world s) m (t_pc t) with
              | Some (w', m', pc') =>
                  Some {| world := w';
                          mappers := <[t_mapper t := m']> (mappers s);
                          threads := <[i := {| t_mapper := t_mapper t; t_pc := pc' |}]> (threads s);
                          halted := bool_decide (pc' = pc_exit Aborts) |}
              | None => None
              end
            else None
        | None => None
        end
    | None => None
    end.

Definition step (s s' : System) : Prop := ∃ i o, sys_step i o s = Some s'.

(** A schedule, executed; [None] if some choice is impossible. *)
Fixpoint run_schedule (sch : list (nat * OS)) (s : System) : option System :=
  match sch with
  | [] => Some s
  | (i, o) :: sch' =>
      match sys_step i o s with
      | Some s' => run_schedule sch' s'
      | None => None
      end
  end.

(** A process starting on world [w] with one mapper per constructor and one
    thread per entry of [tm] (the mapper it belongs to), all about to call
    [get_shm_logger]. *)
Definition boot (w : World) (ctors : list Constructor) (tm : list nat) : System :=
  {| world := w;
     mappers := fresh_mapper <$> ctors;
     threads := (λ k, {| t_mapper := k; t_pc := pc_call_once |}) <$> tm;
     halted := false |}.

Definition is_returned (t : Thread) : bool :=
  match t_pc t with pc_exit (Returns _) => true | _ => false end.

Definition all_returned (s : System) : Prop :=
  Forall (λ t, is_returned t = true) (threads s).

(** The history agrees with the flag: nothing built and flag clear, or
    built once and flag set. *)
Definition consistent (w : World) : Prop :=
  (initialized (region w) = false ∧ storage (region w) = None ∧ constructions w = 0) ∨
  (initialized (region w) = true ∧ is_Some (storage (region w)) ∧ constructions w = 1).

(** Live mappings are non-null and pairwise disjoint. *)
Fixpoint vm_ok (l : list Z) : Prop :=
  match l with
  | [] => True
  | a :: l' =>
      (0 < a)%Z ∧
      Forall (λ b, (a + sizeof_ShmBlock ≤ b ∨ b + sizeof_ShmBlock ≤ a)%Z) l' ∧
      vm_ok l'
  end.

(** ** Invariants of the small-step semantics *)

(** Statements inside [init_shm_block]. *)
Definition in_init (pc : PC) : bool :=
  match pc with
  | pc_shm_open | pc_ftruncate _ | pc_mmap _ | pc_store_block _
  | pc_cas | pc_construct | pc_init_return => true
  | _ => false
  end.

(** What a thread at [pc] knows about its mapper [m] and the world. *)
Definition thread_ok (w : World) (m : Mapper) (pc : PC) : Prop :=
  match pc with
  | pc_call_once => True
  | pc_shm_open => g_init_flag m = OnceRunning
  | pc_ftruncate _ | pc_mmap _ => g_init_flag m = OnceRunning ∧ is_Some (shm w)
  | pc_store_block a =>
      g_init_flag m = OnceRunning ∧ is_Some (shm w) ∧ a ∈ vm w
  | pc_cas => g_init_flag m = OnceRunning ∧ is_Some (shm w) ∧ g_block m ∈ vm w
  | pc_construct | pc_init_return =>
      g_init_flag m = OnceRunning ∧ g_block m ∈ vm w ∧
      initialized (region w) = true
  | pc_return => g_init_flag m = OnceDone
  | pc_exit (Returns r) =>
      g_init_flag m = OnceDone ∧ r = (g_block m + storage_offset)%Z
  | pc_exit Aborts => True
  | pc_exit Throws => payload_ctor m = Throw
  | pc_exit NullBlockDeref | pc_exit Blocks => False
  end.

Definition mapper_ok (w : World) (m : Mapper) : Prop :=
  g_init_flag m = OnceDone →
  g_block m ∈ vm w ∧ initialized (region w) = true.

Definition none_at (pc : PC) (ts : list Thread) : Prop :=
  ∀ j t, ts !! j = Some t → t_pc t ≠ pc.

Definition only_at (pc : PC) (i : nat) (ts : list Thread) : Prop :=
  (∃ t, ts !! i = Some t ∧ t_pc t = pc) ∧
  ∀ j t, ts !! j = Some t → t_pc t = pc → j = i.

(** Where the one-time initialisation of the block stands. *)
Inductive Phase := Untouched | Claimed | Built | Poisoned.

Definition phase_ok (ph : Phase) (s : System) : Prop :=
  let b := region (world s) in
  let c := constructions (world s) in
  match ph with
  | Untouched =>
      initialized b = false ∧ storage b = None ∧ c = 0 ∧
      none_at pc_construct (threads s) ∧ none_at (pc_exit Throws) (threads s)
  | Claimed =>
      initialized b = true ∧ storage b = None ∧ c = 0 ∧
      (∃ i, only_at pc_construct i (threads s)) ∧
      none_at (pc_exit Throws) (threads s)
  | Built =>
      initialized b = true ∧ is_Some (storage b) ∧ c = 1 ∧
      none_at pc_construct (threads s) ∧ none_at (pc_exit Throws) (threads s)
  | Poisoned =>
      initialized b = true ∧ storage b = None ∧ c = 0 ∧
      none_at pc_construct (threads s) ∧
      ∃ i t, threads s !! i = Some t ∧ t_pc t = pc_exit Throws
  end.

Record Inv (s : System) : Prop := {
  inv_vm : vm_ok (vm (world s));
  inv_threads : ∀ i t,
    threads s !! i = Some t → t_pc t ≠ pc_call_once →
    ∃ m, mappers s !! t_mapper t = Some m ∧ thread_ok (world s) m (t_pc t);
  inv_mappers : ∀ k m, mappers s !! k = Some m → mapper_ok (world s) m;
  inv_excl : ∀ i j ti tj,
    threads s !! i = Some ti → threads s !! j = Some tj →
    in_init (t_pc ti) = true → in_init (t_pc tj) = true →
    t_mapper ti = t_mapper tj → i = j;
  inv_phase : ∃ ph, phase_ok ph s
}.

(** ** Sequences of API calls by the mappers of one process *)

Inductive Call :=
| call_get (k : nat) (o : OS)
| call_cleanup (k : nat).

Record Process := {
  p_world : World;
  p_mappers : list Mapper;
  p_alive : bool
}.

Definition run_call (c : Call) (p : Process) : Process :=
  if p_alive p then
    match c with
    | call_get k o =>
        match p_mappers p !! k with
        | Some m =>
            let '(out, m', w') := get_shm_logger o m (p_world p) in
            {| p_world := w'; p_mappers := <[k := m']> (p_mappers p);
               p_alive := bool_decide (out ≠ Aborts) |}
        | None => p
        end
    | call_cleanup k =>
        match p_mappers p !! k with
        | Some m =>
            let '(m', w') := cleanup_shm_logger m (p_world p) in
            {| p_world := w'; p_mappers := <[k := m']> (p_mappers p);
               p_alive := true |}
        | None => p
        end
    end
  else p.

Definition run_calls (cs : list Call) (p : Process) : Process :=
  foldl (λ p c, run_call c p) p cs.

(** Events that would release the payload or the named object. *)
Definition is_teardown (e : Event) : bool :=
  match e with ev_shm_unlink | ev_dtor _ => true | _ => false end.

(** From [w] to [w']: the history only grew, by events that are no
    teardown; the named object, if it existed, still exists; the payload,
    if it was constructed, is still there. *)
Definition persists (w w' : World) : Prop :=
  (∃ evs, trace w' = trace w ++ evs ∧ Forall (λ e, is_teardown e = false) evs) ∧
  (is_Some (shm w) → is_Some (shm w')) ∧
  (is_Some (storage (region w)) → is_Some (storage (region w'))).

(** Control comes back to the caller of [get_shm_logger] (with a reference
    or with an exception in flight). *)
Definition back_to_caller (out : Outcome) : bool :=
  match out with
  | Returns _ | NullBlockDeref | Throws => true
  | Aborts | Blocks => false
  end.

(** The live mappings only grow, the object stays, the flag stays set. *)
Definition world_le (w w' : World) : Prop :=
  (∀ a, a ∈ vm w → a ∈ vm w') ∧
  (is_Some (shm w) → is_Some (shm w')) ∧
  (initialized (region w) = true → initialized (region w') = true).

(** Invariant of a process with a single mapper whose constructor does not
    throw: whoever is past the once-guarded section sees the payload. *)
Record OneMapperInv (s : System) : Prop := {
  om_threads : ∀ i t, threads s !! i = Some t → t_mapper t = 0;
  om_ctor : ∀ m, mappers s !! 0 = Some m → payload_ctor m ≠ Throw;
  om_done : ∀ m,
    mappers s !! 0 = Some m → g_init_flag m = OnceDone →
    is_Some (storage (region (world s)));
  om_init_return : ∀ i t,
    threads s !! i = Some t → t_pc t = pc_init_return →
    is_Some (storage (region (world s)))
}.

(** ** Example schedules *)

Definition os_a : OS := os_ok 3 4096.
Definition os_b : OS := os_ok 4 8192.
Definition os_c : OS := os_ok 5 12288.

(** Thread [i] takes [k] steps, the kernel answering [o]. *)
Definition turns (k i : nat) (o : OS) : list (nat * OS) := replicate k (i, o).

(** Three threads of one mapper: thread 0 initialises, the others pass. *)
Definition schedule_one_mapper : list (nat * OS) :=
  turns 8 0 os_a ++ turns 1 1 os_a ++ turns 1 2 os_a ++
  turns 1 0 os_a ++ turns 1 2 os_a ++ turns 1 1 os_a.

(** Thread 0 (mapper 0) up to and including its compare-exchange. *)
Definition schedule_claim : list (nat * OS) := turns 6 0 os_a.

(** Then thread 1 (mapper 1) runs its whole call. *)
Definition schedule_early_return : list (nat * OS) :=
  schedule_claim ++ turns 8 1 os_b.

(** Two mappers, three threads, everybody finishes. *)
Definition schedule_two_mappers : list (nat * OS) :=
  schedule_early_return ++ turns 3 0 os_a ++ turns 2 2 os_a.

(** After a failed constructor in mapper 0: thread 1 (mapper 1), then
    thread 2 (mapper 0 again). *)
Definition schedule_after_throw : list (nat * OS) :=
  turns 8 1 os_b ++ turns 8 2 os_c.

(** The flag being set means the payload is constructed. *)
Definition flag_means_constructed (s : System) : Prop :=
  initialized (region (world s)) = true → is_Some (storage (region (world s))).


End ShmLogger.

(** * [os_scope/singleton_daemon.cpp] *)

Module SingletonDaemon.

Definition EWOULDBLOCK : Z := 11.

(** The advisory lock on [LOCK_FILE = "/tmp/os_scope_singleton.lock"]: the
    process holding [LOCK_EX], if any. *)
Record Kernel := { lock_holder : option Z }.

(** The kernel's answers: the descriptor (or [-1]) and [errno] of [open],
    and the [errno] of an [flock] failure other than contention, if the
    call is to fail that way. *)
Record OS := {
  os_open : Z;
  os_open_errno : Z;
  os_flock_fault : option Z
}.

Inductive Output :=
| cout_banner
| cerr_open_failed (errno : Z)
| cout_attempting (pid : Z)
| cerr_already_running (pid : Z)
| cerr_flock_failed (pid errno : Z)
| cout_acquired (pid : Z)
| cout_lock_file (pid : Z)
| cout_key_insight
| cout_press_enter
| cout_released (pid : Z).

#[global] Instance Output_eq_dec : EqDecision Output.
Proof. solve_decision. Defined.

(** [flock(fd, LOCK_EX | LOCK_NB)] on a freshly opened file: return value,
    [errno] and the lock afterwards.  A held lock is never waited for. *)
Definition flock_ex_nb (pid : Z) (o : OS) (k : Kernel) : Z * Z * Kernel :=
  match os_flock_fault o with
  | Some e => (-1, e, k)
  | None =>
      match lock_holder k with
      | Some _ => (-1, EWOULDBLOCK, k)
      | None => (0, 0, {| lock_holder := Some pid |})
      end
  end%Z.

(** The exclusive lock is granted to the caller. *)
Definition lock_granted (pid : Z) (o : OS) (k : Kernel) : Prop :=
  (flock_ex_nb pid o k).1.1 = 0%Z.

Record Run := {
  exit_code : Z;
  output : list Output;
  kernel_after : Kernel
}.

(** [main] of process [pid]; [std::cin.get()] returns when a key is
    pressed or input ends. *)
Definition main (pid : Z) (o : OS) (k : Kernel) : Run :=
  let out := [cout_banner] in
  let fd := os_open o in
  if bool_decide (fd < 0)%Z then
    {| exit_code := 1;
       output := out ++ [cerr_open_failed (os_open_errno o)];
       kernel_after := k |}
  else
    let out := out ++ [cout_attempting pid] in
    let '(ret, errno, k') := flock_ex_nb pid o k in
    if bool_decide (ret < 0)%Z then
      {| exit_code := 1;
         output := out ++ [if bool_decide (errno = EWOULDBLOCK)
                           then cerr_already_running pid
                           else cerr_flock_failed pid errno];
         kernel_after := k' |}
    else
      {| exit_code := 0;
         output := out ++ [cout_acquired pid; cout_lock_file pid; cout_key_insight;
                           cout_press_enter; cout_released pid];
         kernel_after := {| lock_holder := None |} |}.

End SingletonDaemon.

(** * Using the shared-memory logger: [ProcessLogger::log], descriptors, mappings *)

Module ShmLoggerUse.
Import ShmLogger.

(** What a call of [ProcessLogger::log] does: print the line, or read
    memory that holds no logger or no string (the behaviour is undefined). *)
Inductive LogOutcome :=
| Logged (who : string) (this : Z) (tag : string)
| BadAccess.

(** The string literals of the images loaded in a process: those of its
    mappers' constructor expressions. *)
Definition literals (ms : list Mapper) : list Literal :=
  omap (λ m, match payload_ctor m with
             | Build l => Some l
             | Throw => None
             end) ms.

(** The text at address [a] in a process whose string literals are [mem]. *)
Definition read_string (mem : list Literal) (a : Z) : option string :=
  match list_find (λ l, lit_addr l = a) mem with
  | Some (_, l) => Some (lit_text l)
  | None => None
  end.

(** [log(who)] on the object at address [this], in a process whose string
    literals are [mem]: the member [tag_] is read through the live mappings,
    and the text it points to is read in the calling process
    ([process_logger.hpp]). *)
Definition ProcessLogger_log (mem : list Literal) (w : World) (this : Z)
    (who : string) : LogOutcome :=
  match resolve w this with
  | Some off =>
      if bool_decide (off = storage_offset) then
        match storage (region w) with
        | Some p =>
            match read_string mem (tag_ p) with
            | Some tag => Logged who this tag
            | None => BadAccess
            end
        | None => BadAccess
        end
      else BadAccess
  | None => BadAccess
  end.

(** [get_shm_logger().log(who)], the statement of [main] and of the
    plugins; [None] when the call does not come back. *)
Definition get_shm_logger_log (mem : list Literal) (o : OS) (m : Mapper)
    (w : World) (who : string) : option LogOutcome * Mapper * World :=
  match get_shm_logger o m w with
  | (Returns r, m', w') => (Some (ProcessLogger_log mem w' r who), m', w')
  | (NullBlockDeref, m', w') =>
      (Some (ProcessLogger_log mem w' (nullptr + storage_offset) who), m', w')
  | (_, m', w') => (None, m', w')
  end.

(** What a process started later finds: the named object as it was left
    ([shm_unlink] is never called), no mapping, and a history of its own. *)
Definition later_process (w : World) : World :=
  {| shm := shm w; vm := []; trace := [] |}.

(** Descriptors open after a history: [shm_open] adds its descriptor,
    [close] removes it. *)
Fixpoint remove_one (fd : Z) (l : list Z) : list Z :=
  match l with
  | [] => []
  | x :: l' => if bool_decide (x = fd) then l' else x :: remove_one fd l'
  end.

Definition fd_step (fds : list Z) (e : Event) : list Z :=
  match e with
  | ev_shm_open fd => if bool_decide (fd < 0)%Z then fds else fd :: fds
  | ev_close fd => remove_one fd fds
  | _ => fds
  end.

Definition open_fds (w : World) : list Z := foldl fd_step [] (trace w).

(** Successful [mmap] calls in a history. *)
Definition is_mapping (e : Event) : bool :=
  match e with
  | ev_mmap _ addr => bool_decide (addr ≠ MAP_FAILED)
  | _ => false
  end.

Definition mappings_made (w : World) : nat :=
  length (filter (λ e, is_mapping e = true) (trace w)).

(** Mappers whose once-flag is untouched. *)
Definition fresh_mappers (ms : list Mapper) : nat :=
  length (filter (λ m, g_init_flag m = OnceFresh) ms).

(** 1 for a mapper whose once-flag is untouched, 0 otherwise. *)
Definition fresh1 (m : Mapper) : nat :=
  if decide (g_init_flag m = OnceFresh) then 1 else 0.

(** A call is over. *)
Definition is_finished (t : Thread) : bool :=
  match t_pc t with pc_exit _ => true | _ => false end.

(** Somebody is executing the once-guarded section of every mapper whose
    once-flag says so, and every thread belongs to a loaded mapper. *)
Record Live (s : System) : Prop := {
  live_running : ∀ k m,
    mappers s !! k = Some m → g_init_flag m = OnceRunning →
    halted s = true ∨
    ∃ i t, threads s !! i = Some t ∧ t_mapper t = k ∧ in_init (t_pc t) = true;
  live_mapper : ∀ i t, threads s !! i = Some t → is_Some (mappers s !! t_mapper t)
}.

End ShmLoggerUse.

(** * [process_scope/dlsym_default]: [dso_common.cpp], the plugins, [main.cpp] *)

Module DlsymDefault.

(** The dynamic loader's answers: the result of
    [dlsym(RTLD_DEFAULT, "get_process_logger")] (0 when not found) and of
    [dlerror()] (absent when it returns null). *)
Record Loader := {
  ld_sym : Z;
  ld_error : option string
}.

(** The main executable: where [get_process_logger] and [g_logger] live, and
    the tag [g_logger] was constructed with (["dlsym_default"]). *)
Record Image := {
  fn_get_process_logger : Z;
  addr_g_logger : Z;
  g_logger_tag : string
}.

Inductive Event :=
| ev_dlsym (sym : Z)
| ev_dlerror
| ev_cout_resolved (sym : Z)
| ev_cout_log (who : string) (this : Z) (tag : string).

#[global] Instance Event_eq_dec : EqDecision Event.
Proof. solve_decision. Defined.

(** The statics of [dso_common.cpp] and what has been printed or asked. *)
Record State := {
  g_cached_fn : Z;
  trace : list Event
}.

Definition emit (evs : list Event) (st : State) : State :=
  {| g_cached_fn := g_cached_fn st; trace := trace st ++ evs |}.

(** A value, a [std::runtime_error] with its message, or a call through a
    pointer that is not a function of the program. *)
Inductive Result (A : Type) :=
| Value (a : A)
| Raise (what : string)
| WildCall.
Arguments Value {A} a.
Arguments Raise {A} what.
Arguments WildCall {A}.

Definition resolve_get_logger (ld : Loader) (st : State) : Result Z * State :=
  if bool_decide (g_cached_fn st ≠ 0%Z) then (Value (g_cached_fn st), st)
  else
    let sym := ld_sym ld in
    let st := emit [ev_dlsym sym] st in
    if bool_decide (sym = 0%Z) then
      let err := ld_error ld in
      (Raise ("dlsym failed: " +:+ match err with
                                   | Some e => e
                                   | None => "unknown error"
                                   end),
       emit [ev_dlerror] st)
    else
      let st := emit [ev_cout_resolved sym] st in
      (Value sym, {| g_cached_fn := sym; trace := trace st |}).

(** [get_process_logger] of [main.cpp] returns [g_logger]. *)
Definition call_pointer (img : Image) (fn : Z) : Result Z :=
  if bool_decide (fn = fn_get_process_logger img) then Value (addr_g_logger img)
  else WildCall.

Definition get_logger_via_dlsym (img : Image) (ld : Loader) (st : State)
  : Result Z * State :=
  match resolve_get_logger ld st with
  | (Value fn, st') => (call_pointer img fn, st')
  | (Raise e, st') => (Raise e, st')
  | (WildCall, st') => (WildCall, st')
  end.

(** [ProcessLogger::log] on the object at [this]. *)
Definition ProcessLogger_log (img : Image) (this : Z) (who : string) (st : State)
  : Result unit * State :=
  if bool_decide (this = addr_g_logger img) then
    (Value (), emit [ev_cout_log who this (g_logger_tag img)] st)
  else (WildCall, st).

(** [libA_entry], [libC_entry]: [get_logger_via_dlsym().log(who)]. *)
Definition lib_entry (who : string) (img : Image) (ld : Loader) (st : State)
  : Result unit * State :=
  match get_logger_via_dlsym img ld st with
  | (Value this, st') => ProcessLogger_log img this who st'
  | (Raise e, st') => (Raise e, st')
  | (WildCall, st') => (WildCall, st')
  end.

Definition libA_entry := lib_entry "libA".
Definition libC_entry := lib_entry "libC".

(** Plugin entries called one after the other, each with the loader's
    answers at that time; an exception leaving an entry ends the run. *)
Fixpoint run_entries (img : Image) (es : list (string * Loader)) (st : State)
  : Result unit * State :=
  match es with
  | [] => (Value (), st)
  | (who, ld) :: es' =>
      match lib_entry who img ld st with
      | (Value _, st') => run_entries img es' st'
      | (r, st') => (r, st')
      end
  end.

Definition is_dlsym (e : Event) : bool :=
  match e with ev_dlsym _ => true | _ => false end.

Definition dlsym_calls (st : State) : nat :=
  length (filter (λ e, is_dlsym e = true) (trace st)).

Definition is_log (e : Event) : bool :=
  match e with ev_cout_log _ _ _ => true | _ => false end.

Definition log_lines (st : State) : list Event :=
  filter (λ e, is_log e = true) (trace st).

End DlsymDefault.

Import ShmLogger.

Set Warnings "-clear-no-such-hyp".

(** * Facts about single calls *)

Implicit Types (o : OS) (m : Mapper) (w : World).

Lemma region_emit evs w : region (emit evs w) = region w.
Proof. reflexivity. Qed.

Lemma constructions_emit evs w :
  constructions (emit evs w) =
  constructions w + length (filter (λ e, is_ctor e = true) evs).
Proof. unfold constructions, emit; simpl. by rewrite filter_app, length_app. Qed.

(** The call of a thread that runs alone is [get_shm_logger]. *)
Lemma run_thread_get_shm_logger o m w :
  g_init_flag m ≠ OnceRunning →
  run_thread 9 o w m pc_call_once =
  let '(out, m', w') := get_shm_logger o m w in (w', m', pc_exit out).
Proof.
  intros Hrun. unfold get_shm_logger, init_shm_block.
  destruct m as [b [] c]; simpl in *; try done.
  repeat (case_bool_decide; simpl; try done).
  unfold cas_initialized, region; simpl.
  destruct (shm w) as [[sz [[] st]]|]; simpl; destruct c; simpl; done.
Qed.

Lemma region_sys_shm_open w : region (sys_shm_open w) = region w.
Proof. unfold region, sys_shm_open; simpl. by destruct (shm w). Qed.

Lemma region_sys_ftruncate w : region (sys_ftruncate w) = region w.
Proof. unfold region, sys_ftruncate; simpl. by destruct (shm w). Qed.

Lemma region_sys_mmap a w : region (sys_mmap a w) = region w.
Proof. reflexivity. Qed.

Lemma region_sys_munmap a w : region (sys_munmap a w) = region w.
Proof. reflexivity. Qed.

Lemma constructions_set_region b w : constructions (set_region b w) = constructions w.
Proof. reflexivity. Qed.

Lemma constructions_sys_shm_open w : constructions (sys_shm_open w) = constructions w.
Proof. reflexivity. Qed.

Lemma constructions_sys_ftruncate w : constructions (sys_ftruncate w) = constructions w.
Proof. reflexivity. Qed.

Lemma constructions_sys_mmap a w : constructions (sys_mmap a w) = constructions w.
Proof. reflexivity. Qed.

Ltac simpl_world :=
  repeat first
    [ rewrite region_emit | rewrite region_sys_mmap | rewrite region_sys_ftruncate
    | rewrite region_sys_shm_open | rewrite region_sys_munmap
    | rewrite constructions_emit | rewrite constructions_set_region
    | rewrite constructions_sys_shm_open | rewrite constructions_sys_ftruncate
    | rewrite constructions_sys_mmap ];
  simpl.

Lemma cas_initialized_set w :
  initialized (region w) = true → cas_initialized w = (false, w).
Proof. unfold cas_initialized. by intros ->. Qed.

(** With the flag set, [init_shm_block] only opens and maps. *)
Lemma init_shm_block_flag_set o m w res m' w' :
  initialized (region w) = true →
  init_shm_block o m w = (res, m', w') →
  res ≠ InitThrow ∧ region w' = region w ∧ constructions w' = constructions w ∧
  (res = InitDone → g_block m' = os_mmap o ∧ os_mmap o ≠ MAP_FAILED ∧
                    os_mmap o ∈ vm w').
Proof.
  intros Hflag. unfold init_shm_block.
  repeat case_bool_decide; simpl.
  1-3: intros [= <- <- <-]; simpl_world; split_and!; try done; lia.
  rewrite cas_initialized_set by (by simpl_world).
  intros [= <- <- <-]. simpl_world.
  split_and!; try done; try lia.
  intros _. split_and!; try done. simpl. set_solver.
Qed.

(** With the flag set, a call never constructs and leaves the block alone. *)
Lemma get_shm_logger_flag_set o m w out m' w' :
  initialized (region w) = true →
  get_shm_logger o m w = (out, m', w') →
  out ≠ Throws ∧ region w' = region w ∧ constructions w' = constructions w.
Proof.
  intros Hflag. unfold get_shm_logger.
  destruct (g_init_flag m).
  - destruct (init_shm_block _ _ _) as [[res m1] w1] eqn:Hinit.
    apply init_shm_block_flag_set in Hinit as (Hres & Hreg & Hcnt & _); [|done].
    destruct res; intros [= <- <- <-]; try done.
    split_and!; try done. unfold deref_storage. by case_bool_decide.
  - by intros [= <- <- <-].
  - intros [= <- <- <-]. split_and!; try done.
    unfold deref_storage. by case_bool_decide.
Qed.

(** A call that returns a reference leaves the mapper initialised. *)
Lemma get_shm_logger_returns o m w r m' w' :
  get_shm_logger o m w = (Returns r, m', w') →
  g_init_flag m' = OnceDone ∧ g_block m' ≠ nullptr ∧
  r = (g_block m' + storage_offset)%Z.
Proof.
  unfold get_shm_logger.
  destruct (g_init_flag m) eqn:Hflag.
  - destruct (init_shm_block _ _ _) as [[[] m1] w1]; try done.
    unfold deref_storage; simpl. case_bool_decide; [done|].
    by intros [= <- <- <-].
  - done.
  - unfold deref_storage. case_bool_decide; [done|].
    by intros [= <- <- <-].
Qed.

(** * The claims about single calls *)

(** C7. [acquire] is idempotent per mapper: after a call of [get_shm_logger]
    has returned, a second call in the same mapper returns the same
    reference (formed from the cached [g_block]) and leaves mapper and world
    as they are, so in particular its trace gains no [shm_open] and no
    [mmap].  (Without [cleanup_shm_logger] in between.) *)
Theorem get_shm_logger_idempotent o1 o2 m w r m1 w1 :
  get_shm_logger o1 m w = (Returns r, m1, w1) →
  get_shm_logger o2 m1 w1 = (Returns r, m1, w1).
Proof.
  intros (Hdone & Hblk & ->)%get_shm_logger_returns.
  unfold get_shm_logger. rewrite Hdone.
  unfold deref_storage. by rewrite bool_decide_eq_false_2.
Qed.

Lemma get_shm_logger_idempotent_witness :
  get_shm_logger (os_ok 3 4096) (fresh_mapper shared_memory_ctor) fresh_world =
    (Returns 4160,
     {| g_block := 4096; g_init_flag := OnceDone; payload_ctor := shared_memory_ctor |},
     {| shm := Some {| shm_size := 320;
                       shm_block := {| initialized := true;
                                       storage := Some {| tag_ := 4202496 |} |} |};
        vm := [4096%Z];
        trace := [ev_shm_open 3; ev_ftruncate 3 0; ev_mmap 3 4096; ev_close 3;
                  ev_cout_mapped 4096; ev_cout_initializing;
                  ev_ctor "shared_memory" 4160] |}) ∧
  get_shm_logger (os_ok 5 8192)
    {| g_block := 4096; g_init_flag := OnceDone; payload_ctor := shared_memory_ctor |}
    {| shm := Some {| shm_size := 320;
                      shm_block := {| initialized := true;
                                      storage := Some {| tag_ := 4202496 |} |} |};
       vm := [4096%Z];
       trace := [ev_shm_open 3; ev_ftruncate 3 0; ev_mmap 3 4096; ev_close 3;
                 ev_cout_mapped 4096; ev_cout_initializing;
                 ev_ctor "shared_memory" 4160] |} =
    (Returns 4160,
     {| g_block := 4096; g_init_flag := OnceDone; payload_ctor := shared_memory_ctor |},
     {| shm := Some {| shm_size := 320;
                       shm_block := {| initialized := true;
                                       storage := Some {| tag_ := 4202496 |} |} |};
        vm := [4096%Z];
        trace := [ev_shm_open 3; ev_ftruncate 3 0; ev_mmap 3 4096; ev_close 3;
                  ev_cout_mapped 4096; ev_cout_initializing;
                  ev_ctor "shared_memory" 4160] |}).
Proof.
  split; [reflexivity|].
  apply (get_shm_logger_idempotent (os_ok 3 4096) (os_ok 5 8192)
           (fresh_mapper shared_memory_ctor) fresh_world).
  reflexivity.
Defined.

(** C10. After a call of [get_shm_logger] has returned and
    [cleanup_shm_logger] has run, [g_block] is null while the once-flag is
    still consumed; every later call of [get_shm_logger], whatever the
    kernel would answer, does not run [init_shm_block] again (mapper and
    world stay as they are) and forms its reference from the null block
    pointer. *)
Theorem get_shm_logger_after_cleanup_null o1 o2 m w r m1 w1 m2 w2 :
  get_shm_logger o1 m w = (Returns r, m1, w1) →
  cleanup_shm_logger m1 w1 = (m2, w2) →
  g_block m2 = nullptr ∧ g_init_flag m2 = OnceDone ∧
  w2 = emit [ev_munmap (g_block m1)] (sys_munmap (g_block m1) w1) ∧
  get_shm_logger o2 m2 w2 = (NullBlockDeref, m2, w2).
Proof.
  intros (Hdone & Hblk & ->)%get_shm_logger_returns.
  unfold cleanup_shm_logger. rewrite bool_decide_eq_true_2 by done.
  intros [= <- <-]. split_and!; try done.
  unfold get_shm_logger; simpl. by rewrite Hdone.
Qed.

Lemma get_shm_logger_after_cleanup_null_witness :
  let m1 := {| g_block := 4096; g_init_flag := OnceDone;
               payload_ctor := shared_memory_ctor |} in
  let w1 := (get_shm_logger (os_ok 3 4096) (fresh_mapper shared_memory_ctor) fresh_world).2 in
  let m2 := (cleanup_shm_logger m1 w1).1 in
  let w2 := (cleanup_shm_logger m1 w1).2 in
  g_block m2 = nullptr ∧ g_init_flag m2 = OnceDone ∧
  w2 = emit [ev_munmap (g_block m1)] (sys_munmap (g_block m1) w1) ∧
  get_shm_logger (os_ok 5 8192) m2 w2 = (NullBlockDeref, m2, w2).
Proof.
  intros m1 w1 m2 w2.
  apply (get_shm_logger_after_cleanup_null (os_ok 3 4096) (os_ok 5 8192)
           (fresh_mapper shared_memory_ctor) fresh_world 4160 m1 w1 m2 w2);
    reflexivity.
Defined.

(** C4, as the code has it. On a first call, when [shm_open] fails the
    process prints ["shm_open failed"] with [perror] and calls
    [std::abort]; when [shm_open] and [ftruncate] succeed but [mmap]
    fails, it closes the descriptor, prints ["mmap failed"] and aborts.  In
    both cases the failing call was made once, nothing is mapped, and control
    does not come back to the caller of [get_shm_logger]. *)
Theorem get_shm_logger_open_or_map_failure_aborts o m w :
  g_init_flag m = OnceFresh →
  ((os_shm_open o < 0)%Z →
   get_shm_logger o m w =
     (Aborts, set_once OnceRunning m,
      emit [ev_shm_open (os_shm_open o); ev_perror "shm_open failed"; ev_abort] w)) ∧
  ((0 ≤ os_shm_open o)%Z → (0 ≤ os_ftruncate o)%Z → os_mmap o = MAP_FAILED →
   ∃ w', get_shm_logger o m w = (Aborts, set_once OnceRunning m, w') ∧
         vm w' = vm w ∧
         trace w' = trace w ++
           [ev_shm_open (os_shm_open o);
            ev_ftruncate (os_shm_open o) (os_ftruncate o);
            ev_mmap (os_shm_open o) MAP_FAILED; ev_close (os_shm_open o);
            ev_perror "mmap failed"; ev_abort]) ∧
  (((os_shm_open o < 0)%Z ∨ os_mmap o = MAP_FAILED) →
   back_to_caller (get_shm_logger o m w).1.1 = false).
Proof.
  intros Hfresh. unfold get_shm_logger, init_shm_block. rewrite Hfresh.
  split_and!.
  - intros Hfd. by rewrite bool_decide_eq_true_2.
  - intros Hfd Hft Hmap.
    rewrite !bool_decide_eq_false_2 by lia.
    rewrite bool_decide_eq_true_2 by done.
    eexists; split_and!; [done..|].
    simpl. rewrite Hmap. by rewrite <- !app_assoc.
  - intros Hfail. repeat case_bool_decide; try done. naive_solver.
Qed.

Lemma get_shm_logger_open_or_map_failure_aborts_witness :
  get_shm_logger (os_ok (-1) 4096) (fresh_mapper shared_memory_ctor) fresh_world =
    (Aborts, set_once OnceRunning (fresh_mapper shared_memory_ctor),
     emit [ev_shm_open (-1); ev_perror "shm_open failed"; ev_abort] fresh_world) ∧
  back_to_caller
    (get_shm_logger (os_ok 3 MAP_FAILED) (fresh_mapper shared_memory_ctor) fresh_world).1.1
  = false.
Proof.
  split.
  - apply (get_shm_logger_open_or_map_failure_aborts
             (os_ok (-1) 4096) (fresh_mapper shared_memory_ctor) fresh_world eq_refl).
    reflexivity.
  - apply (get_shm_logger_open_or_map_failure_aborts
             (os_ok 3 MAP_FAILED) (fresh_mapper shared_memory_ctor) fresh_world eq_refl).
    by right.
Defined.

(** C4 as stated fails: with [shm_open] answering [-1] the call does not
    hand an error back to its caller; the process is aborted. *)
Lemma open_failure_not_propagated :
  ¬ (back_to_caller
       (get_shm_logger (os_ok (-1) 4096) (fresh_mapper shared_memory_ctor)
          fresh_world).1.1 = true).
Proof. by vm_compute. Qed.

(** * Nothing is ever torn down *)

Lemma persists_refl w : persists w w.
Proof.
  split_and!; try done. exists []. by rewrite app_nil_r.
Qed.

Lemma persists_trans w1 w2 w3 : persists w1 w2 → persists w2 w3 → persists w1 w3.
Proof.
  intros ((e1 & Ht1 & Hf1) & Hs1 & Hp1) ((e2 & Ht2 & Hf2) & Hs2 & Hp2).
  split_and!; [|by auto..].
  exists (e1 ++ e2). rewrite Ht2, Ht1, app_assoc. split; [done|].
  by apply Forall_app.
Qed.

Lemma persists_emit evs w :
  Forall (λ e, is_teardown e = false) evs → persists w (emit evs w).
Proof. intros Hevs. split_and!; try done. by exists evs. Qed.

Lemma thread_step_persists o w m pc w' m' pc' :
  thread_step o w m pc = Some (w', m', pc') → persists w w'.
Proof.
  destruct pc; simpl.
  - destruct (g_init_flag m); intros [= <- <- <-] || done; apply persists_refl.
  - case_bool_decide; intros [= <- <- <-].
    + apply persists_emit. by repeat constructor.
    + eapply persists_trans; [|apply persists_emit; by repeat constructor].
      split_and!; simpl; [exists []; by rewrite app_nil_r|done|].
      by rewrite region_sys_shm_open.
  - case_bool_decide; intros [= <- <- <-].
    + apply persists_emit. by repeat constructor.
    + eapply persists_trans; [|apply persists_emit; by repeat constructor].
      split_and!; simpl; [exists []; by rewrite app_nil_r| |].
      * by destruct (shm w).
      * by rewrite region_sys_ftruncate.
  - case_bool_decide; intros [= <- <- <-].
    + apply persists_emit. by repeat constructor.
    + eapply persists_trans; [|apply persists_emit; by repeat constructor].
      split_and!; simpl; [exists []; by rewrite app_nil_r|done..].
  - intros [= <- <- <-]. apply persists_emit. by repeat constructor.
  - unfold cas_initialized.
    destruct (initialized (region w)) eqn:Hflag; intros [= <- <- <-].
    + apply persists_emit. by repeat constructor.
    + eapply persists_trans; [|apply persists_emit; by repeat constructor].
      split_and!; simpl; [exists []; by rewrite app_nil_r| |].
      * by destruct (shm w).
      * unfold region, set_region; simpl. by destruct (shm w).
  - destruct (payload_ctor m); intros [= <- <- <-]; [|apply persists_refl].
    unfold placement_new.
    eapply persists_trans; [|apply persists_emit; by repeat constructor].
    split_and!; simpl; [exists []; by rewrite app_nil_r| |].
    + by destruct (shm w).
    + unfold region, set_region; simpl. destruct (shm w); simpl; [eauto|].
      by intros [? [=]].
  - intros [= <- <- <-]. apply persists_refl.
  - intros [= <- <- <-]. apply persists_refl.
  - done.
Qed.

Lemma run_thread_persists fuel o w m pc :
  persists w (run_thread fuel o w m pc).1.1.
Proof.
  revert w m pc. induction fuel as [|fuel IH]; intros w m pc; simpl.
  { apply persists_refl. }
  destruct (thread_step o w m pc) as [[[w' m'] pc']|] eqn:Hstep; simpl.
  - eapply persists_trans; [by eapply thread_step_persists|apply IH].
  - apply persists_refl.
Qed.

Lemma get_shm_logger_persists o m w : persists w (get_shm_logger o m w).2.
Proof.
  destruct (decide (g_init_flag m = OnceRunning)) as [Hrun|Hrun].
  - unfold get_shm_logger. rewrite Hrun. apply persists_refl.
  - pose proof (run_thread_persists 9 o w m pc_call_once) as Hp.
    rewrite run_thread_get_shm_logger in Hp by done.
    by destruct (get_shm_logger o m w) as [[out m'] w'].
Qed.

Lemma cleanup_shm_logger_only_unmaps m w :
  shm (cleanup_shm_logger m w).2 = shm w ∧
  trace (cleanup_shm_logger m w).2 =
    trace w ++ (if bool_decide (g_block m ≠ nullptr) then [ev_munmap (g_block m)] else []).
Proof.
  unfold cleanup_shm_logger. case_bool_decide; simpl; [done|].
  by rewrite app_nil_r.
Qed.

Lemma cleanup_shm_logger_persists m w : persists w (cleanup_shm_logger m w).2.
Proof.
  unfold cleanup_shm_logger. case_bool_decide; simpl; [|apply persists_refl].
  eapply persists_trans; [|apply persists_emit; by repeat constructor].
  split_and!; simpl; [exists []; by rewrite app_nil_r|done..].
Qed.

Lemma run_call_persists c p : persists (p_world p) (p_world (run_call c p)).
Proof.
  unfold run_call. destruct (p_alive p); [|apply persists_refl].
  destruct c as [k o|k]; destruct (p_mappers p !! k) as [m|];
    try apply persists_refl.
  - pose proof (get_shm_logger_persists o m (p_world p)) as Hp.
    by destruct (get_shm_logger o m (p_world p)) as [[out m'] w'].
  - pose proof (cleanup_shm_logger_persists m (p_world p)) as Hp.
    by destruct (cleanup_shm_logger m (p_world p)) as [m' w'].
Qed.

Lemma rtc_step_persists s s' : rtc step s s' → persists (world s) (world s').
Proof.
  induction 1 as [|s1 s2 s3 (i & o & Hstep) _ IH]; [apply persists_refl|].
  eapply persists_trans; [|exact IH].
  unfold sys_step in Hstep. destruct (halted s1); [done|].
  destruct (threads s1 !! i) as [t|]; [|done].
  destruct (mappers s1 !! t_mapper t) as [m|]; [|done].
  case_bool_decide; [|done].
  destruct (thread_step _ _ _ _) as [[[w' m'] pc']|] eqn:Hth; [|done].
  injection Hstep as <-. simpl. by eapply thread_step_persists.
Qed.

(** C9. Over every sequence of [get_shm_logger] and [cleanup_shm_logger]
    calls by the mappers of a process, with any kernel answers, the history
    gains no destructor run and no [shm_unlink]; the named object, once it
    exists, still exists afterwards, and a constructed payload stays in it.
    [cleanup_shm_logger] itself leaves the object untouched and adds at most
    the one [munmap] of the mapper's mapping.  The same holds along every
    interleaving of concurrent [get_shm_logger] calls. *)
Theorem no_destructor_no_unlink (cs : list Call) (p : Process) :
  persists (p_world p) (p_world (run_calls cs p)) ∧
  (∀ m w,
     shm (cleanup_shm_logger m w).2 = shm w ∧
     trace (cleanup_shm_logger m w).2 =
       trace w ++ (if bool_decide (g_block m ≠ nullptr)
                   then [ev_munmap (g_block m)] else [])) ∧
  (∀ s s', rtc step s s' → persists (world s) (world s')).
Proof.
  split_and!; [|apply cleanup_shm_logger_only_unmaps|apply rtc_step_persists].
  revert p. induction cs as [|c cs IH]; intros p; simpl.
  - apply persists_refl.
  - eapply persists_trans; [apply run_call_persists|apply IH].
Qed.


(** * Invariants of concurrent executions *)

(** ** What one thread step does to the world *)

Lemma shm_some_set_region b w : is_Some (shm w) → is_Some (shm (set_region b w)).
Proof. unfold set_region; simpl. intros [obj ->]. eauto. Qed.

Lemma region_set_region b w : is_Some (shm w) → region (set_region b w) = b.
Proof. unfold region, set_region. by intros [obj ->]. Qed.

Lemma shm_some_of_flag w : initialized (region w) = true → is_Some (shm w).
Proof. unfold region. destruct (shm w); [eauto|done]. Qed.

Lemma world_le_refl w : world_le w w.
Proof. by split_and!. Qed.

Lemma world_le_emit evs w w' : world_le w w' → world_le w (emit evs w').
Proof. done. Qed.

Lemma thread_step_world_le o w m pc w' m' pc' :
  thread_step o w m pc = Some (w', m', pc') → world_le w w'.
Proof.
  destruct pc; simpl.
  - destruct (g_init_flag m); intros [= <- <- <-] || done; apply world_le_refl.
  - case_bool_decide; intros [= <- <- <-]; apply world_le_emit;
      [apply world_le_refl|].
    split_and!; simpl; [done|eauto|by rewrite region_sys_shm_open].
  - case_bool_decide; intros [= <- <- <-]; apply world_le_emit;
      [apply world_le_refl|].
    split_and!; simpl; [done| |by rewrite region_sys_ftruncate].
    intros [obj ->]; eauto.
  - case_bool_decide; intros [= <- <- <-]; apply world_le_emit;
      [apply world_le_refl|].
    split_and!; simpl; [set_solver|done..].
  - intros [= <- <- <-]. apply world_le_emit, world_le_refl.
  - unfold cas_initialized.
    destruct (initialized (region w)) eqn:Hflag; intros [= <- <- <-];
      apply world_le_emit; [apply world_le_refl|].
    split_and!; simpl; [done|apply shm_some_set_region|congruence].
  - destruct (payload_ctor m); intros [= <- <- <-]; [|apply world_le_refl].
    unfold placement_new. apply world_le_emit.
    split_and!; simpl; [done|apply shm_some_set_region|].
    intros Hflag. by rewrite region_set_region by by apply shm_some_of_flag.
  - intros [= <- <- <-]. apply world_le_refl.
  - intros [= <- <- <-]. apply world_le_refl.
  - done.
Qed.

(** Only the compare-exchange and the placement-new touch the block. *)
Lemma thread_step_region o w m pc w' m' pc' :
  thread_step o w m pc = Some (w', m', pc') →
  pc ≠ pc_cas → pc ≠ pc_construct →
  region w' = region w ∧ constructions w' = constructions w.
Proof.
  destruct pc; simpl; try done.
  - destruct (g_init_flag m); intros [= <- <- <-] || done; done.
  - case_bool_decide; intros [= <- <- <-] _ _; simpl_world; split; (done || lia).
  - case_bool_decide; intros [= <- <- <-] _ _; simpl_world; split; (done || lia).
  - case_bool_decide; intros [= <- <- <-] _ _; simpl_world; split; (done || lia).
  - intros [= <- <- <-] _ _; simpl_world; split; (done || lia).
  - by intros [= <- <- <-] _ _.
  - by intros [= <- <- <-] _ _.
Qed.

Lemma thread_step_vm_ok o w m pc w' m' pc' :
  thread_step o w m pc = Some (w', m', pc') →
  kernel_allows w o pc → vm_ok (vm w) → vm_ok (vm w').
Proof.
  intros Hstep Hplaus Hvm. revert Hstep.
  destruct pc; simpl.
  - destruct (g_init_flag m); intros [= <- <- <-] || done; done.
  - case_bool_decide; by intros [= <- <- <-].
  - case_bool_decide; by intros [= <- <- <-].
  - case_bool_decide; intros [= <- <- <-]; [done|]. simpl.
    destruct Hplaus as [?|[Hpos Hdisj]]; [done|]. by split_and!.
  - by intros [= <- <- <-].
  - unfold cas_initialized.
    destruct (initialized (region w)); intros [= <- <- <-]; done.
  - destruct (payload_ctor m); intros [= <- <- <-]; done.
  - by intros [= <- <- <-].
  - by intros [= <- <- <-].
  - done.
Qed.

Lemma vm_ok_pos l a : vm_ok l → a ∈ l → (0 < a)%Z.
Proof.
  induction l as [|b l IH]; simpl; [by intros _ ?%elem_of_nil|].
  intros (Hpos & _ & Hl) [->|Hin]%elem_of_cons; auto.
Qed.

Lemma vm_ok_disjoint l a b r :
  vm_ok l → a ∈ l → b ∈ l → in_mapping r a → in_mapping r b → a = b.
Proof.
  unfold in_mapping.
  induction l as [|c l IH]; simpl; [by intros _ ?%elem_of_nil|].
  intros (Hpos & Hdisj & Hl) [->|Ha]%elem_of_cons [->|Hb]%elem_of_cons Hra Hrb;
    auto.
  - rewrite Forall_forall in Hdisj. specialize (Hdisj _ Hb). lia.
  - rewrite Forall_forall in Hdisj. specialize (Hdisj _ Ha). lia.
Qed.

Lemma resolve_storage w a :
  vm_ok (vm w) → a ∈ vm w →
  resolve w (a + storage_offset) = Some storage_offset.
Proof.
  intros Hvm Ha. unfold resolve.
  assert (Hin : in_mapping (a + storage_offset) a).
  { unfold in_mapping, storage_offset, sizeof_ShmBlock. lia. }
  destruct (list_find _ _) as [[i b]|] eqn:Hfind.
  - apply list_find_Some in Hfind as (Hb & Hinb & _).
    apply list_elem_of_lookup_2 in Hb.
    rewrite (vm_ok_disjoint _ _ _ _ Hvm Ha Hb Hin Hinb). f_equal. lia.
  - rewrite list_find_None, Forall_forall in Hfind. by destruct (Hfind a Ha).
Qed.

(** ** What one thread step does to the thread and to its mapper *)

Lemma thread_ok_mono w w' m pc :
  thread_ok w m pc → world_le w w' → thread_ok w' m pc.
Proof.
  intros Hok (Hvm & Hshm & Hflag).
  destruct pc as [| | | | | | | | |[]]; simpl in *; naive_solver.
Qed.

Lemma mapper_ok_mono w w' m : mapper_ok w m → world_le w w' → mapper_ok w' m.
Proof. unfold mapper_ok, world_le. naive_solver. Qed.

Lemma thread_ok_in_init w m pc :
  thread_ok w m pc → in_init pc = true → g_init_flag m = OnceRunning.
Proof. destruct pc; simpl; naive_solver. Qed.

(** A thread outside [init_shm_block] of a mapper whose once-flag is not
    done knows nothing that a change of the mapper could break. *)
Lemma thread_ok_other w w' m m' pc :
  thread_ok w m pc →
  g_init_flag m ≠ OnceDone → in_init pc = false →
  payload_ctor m' = payload_ctor m →
  thread_ok w' m' pc.
Proof.
  destruct pc as [| | | | | | | | |[]]; simpl; try done; try naive_solver.
  congruence.
Qed.

(** How a step changes the mapper, if at all. *)
Lemma thread_step_mapper o w m pc w' m' pc' :
  thread_step o w m pc = Some (w', m', pc') →
  (pc ≠ pc_call_once → thread_ok w m pc) →
  m' = m ∨
  payload_ctor m' = payload_ctor m ∧
  (g_init_flag m = OnceFresh ∧ pc = pc_call_once ∨
   g_init_flag m = OnceRunning ∧ in_init pc = true).
Proof.
  destruct pc; simpl.
  - destruct (g_init_flag m) eqn:Hflag; intros [= <- <- <-] || done;
      naive_solver.
  - case_bool_decide; intros [= <- <- <-]; by left.
  - case_bool_decide; intros [= <- <- <-]; by left.
  - case_bool_decide; intros [= <- <- <-]; by left.
  - intros [= <- <- <-] Hok. specialize (Hok ltac:(done)) as [Hrun _].
    right. split; [done|by right].
  - unfold cas_initialized.
    destruct (initialized (region w)); intros [= <- <- <-]; by left.
  - destruct (payload_ctor m) eqn:Hctor; intros [= <- <- <-] Hok; [by left|].
    specialize (Hok ltac:(done)) as [Hrun _].
    right. split; [done|by right].
  - intros [= <- <- <-] Hok. specialize (Hok ltac:(done)) as [Hrun _].
    right. split; [done|by right].
  - intros [= <- <- <-]; by left.
  - done.
Qed.

(** The stepping thread's own knowledge after the step. *)
Lemma thread_step_ok o w m pc w' m' pc' :
  thread_step o w m pc = Some (w', m', pc') →
  (pc ≠ pc_call_once → thread_ok w m pc) →
  mapper_ok w m → vm_ok (vm w) →
  pc' ≠ pc_call_once ∧ thread_ok w' m' pc' ∧ mapper_ok w' m'.
Proof.
  intros Hstep Hok Hm Hvm.
  assert (Hle := thread_step_world_le _ _ _ _ _ _ _ Hstep).
  revert Hstep.
  destruct pc; simpl.
  all: try (specialize (Hok ltac:(done)); simpl in Hok).
  - destruct (g_init_flag m) eqn:Hflag; intros [= <- <- <-] || done;
      split_and!; done.
  - case_bool_decide; intros [= <- <- <-]; (split_and!; [done| |]);
      simpl; try done; try (split; [done|eauto]);
      unfold mapper_ok; by rewrite Hok.
  - destruct Hok as [Hrun Hshm].
    case_bool_decide; intros [= <- <- <-]; (split_and!; [done| |]);
      simpl; try done; try (unfold mapper_ok; by rewrite Hrun).
    split; [done|]. by apply Hle.
  - destruct Hok as [Hrun Hshm].
    case_bool_decide; intros [= <- <- <-]; (split_and!; [done| |]);
      simpl; try done; try (unfold mapper_ok; by rewrite Hrun).
    split_and!; [done..|set_solver].
  - destruct Hok as (Hrun & Hshm & Hin).
    intros [= <- <- <-]. split_and!; try done.
    unfold mapper_ok; simpl. by rewrite Hrun.
  - destruct Hok as (Hrun & Hshm & Hin). unfold cas_initialized.
    destruct (initialized (region w)) eqn:Hflag; intros [= <- <- <-];
      (split_and!; [done| |unfold mapper_ok; by rewrite Hrun]); simpl;
      split_and!; try done.
    simpl_world. by rewrite region_set_region.
  - destruct Hok as (Hrun & Hin & Hflag).
    destruct (payload_ctor m) eqn:Hctor; intros [= <- <- <-].
    + split_and!; [done| |unfold mapper_ok; by rewrite Hrun].
      simpl. split_and!; try done. by apply Hle.
    + split_and!; done.
  - intros [= <- <- <-]. destruct Hok as (Hrun & Hin & Hflag).
    split_and!; done.
  - intros [= <- <- <-]. destruct (Hm Hok) as [Hin Hflag].
    pose proof (vm_ok_pos _ _ Hvm Hin) as Hpos.
    unfold deref_storage. rewrite bool_decide_eq_false_2
      by (unfold nullptr; lia).
    split_and!; done.
  - done.
Qed.

(** Entering [init_shm_block] needs a fresh once-flag. *)
Lemma thread_step_in_init o w m pc w' m' pc' :
  thread_step o w m pc = Some (w', m', pc') →
  in_init pc' = true →
  in_init pc = true ∨ pc = pc_call_once ∧ g_init_flag m = OnceFresh.
Proof.
  destruct pc; simpl; try (by left); try done.
  - destruct (g_init_flag m) eqn:Hflag; intros [= <- <- <-] || done; simpl;
      [by right|done].
  - by intros [= <- <- <-].
Qed.

(** ** Steps of the whole system *)

Lemma sys_step_Some i o s s' :
  sys_step i o s = Some s' →
  ∃ t m w' m' pc',
    halted s = false ∧ kernel_allows (world s) o (t_pc t) ∧
    threads s !! i = Some t ∧ mappers s !! t_mapper t = Some m ∧
    thread_step o (world s) m (t_pc t) = Some (w', m', pc') ∧
    s' = {| world := w';
            mappers := <[t_mapper t := m']> (mappers s);
            threads := <[i := {| t_mapper := t_mapper t; t_pc := pc' |}]> (threads s);
            halted := bool_decide (pc' = pc_exit Aborts) |}.
Proof.
  unfold sys_step. destruct (halted s) eqn:Hhalt; [done|].
  destruct (threads s !! i) as [t|] eqn:Hi; [|done].
  destruct (mappers s !! t_mapper t) as [m|] eqn:Hm; [|done].
  case_bool_decide; [|done].
  destruct (thread_step _ _ _ _) as [[[w' m'] pc']|] eqn:Hstep; [|done].
  intros [= <-]. by exists t, m, w', m', pc'.
Qed.

Lemma none_at_insert pc (ts : list Thread) i t :
  none_at pc ts → t_pc t ≠ pc → none_at pc (<[i:=t]> ts).
Proof.
  intros Hnone Ht j t' [(-> & <- & _)|[_ Hj]]%list_lookup_insert_Some; [done|].
  by eapply Hnone.
Qed.

Lemma only_at_insert_other pc k (ts : list Thread) i t t0 :
  only_at pc k ts → ts !! i = Some t0 → t_pc t0 ≠ pc → t_pc t ≠ pc →
  only_at pc k (<[i:=t]> ts).
Proof.
  intros [(tk & Hk & Hpck) Huniq] Hi Ht0 Ht.
  assert (i ≠ k) by (intros ->; congruence).
  split.
  - exists tk. by rewrite list_lookup_insert_ne.
  - intros j t' [(-> & <- & _)|[_ Hj]]%list_lookup_insert_Some; [done|].
    by eapply Huniq.
Qed.

Lemma only_at_insert_enter pc (ts : list Thread) i t t0 :
  none_at pc ts → ts !! i = Some t0 → t_pc t = pc →
  only_at pc i (<[i:=t]> ts).
Proof.
  intros Hnone Hi Ht. split.
  - exists t. split; [|done].
    apply list_lookup_insert_eq. by eapply lookup_lt_Some.
  - intros j t' [(-> & <- & _)|[_ Hj]]%list_lookup_insert_Some; [done|].
    intros Hpc. by destruct (Hnone _ _ Hj).
Qed.

Lemma only_at_insert_leave pc k (ts : list Thread) i t t0 :
  only_at pc k ts → ts !! i = Some t0 → t_pc t0 = pc → t_pc t ≠ pc →
  none_at pc (<[i:=t]> ts).
Proof.
  intros [_ Huniq] Hi Ht0 Ht j t'
    [(-> & <- & _)|[Hne Hj]]%list_lookup_insert_Some; [done|].
  intros Hpc. apply Hne.
  by rewrite (Huniq _ _ Hi Ht0), (Huniq _ _ Hj Hpc).
Qed.

Lemma some_at_insert pc (ts : list Thread) i t t0 :
  (∃ j t', ts !! j = Some t' ∧ t_pc t' = pc) →
  ts !! i = Some t0 → t_pc t0 ≠ pc →
  ∃ j t', <[i:=t]> ts !! j = Some t' ∧ t_pc t' = pc.
Proof.
  intros (j & t' & Hj & Hpc) Hi Ht0.
  assert (i ≠ j) by (intros ->; congruence).
  exists j, t'. by rewrite list_lookup_insert_ne.
Qed.

(** A step that leaves the block alone and neither enters nor leaves the
    placement-new keeps the phase. *)
Lemma phase_ok_frame ph s i t pc' w' ms' hl :
  phase_ok ph s → threads s !! i = Some t →
  t_pc t ≠ pc_construct → t_pc t ≠ pc_exit Throws →
  pc' ≠ pc_construct → pc' ≠ pc_exit Throws →
  region w' = region (world s) → constructions w' = constructions (world s) →
  phase_ok ph {| world := w'; mappers := ms';
                 threads := <[i := {| t_mapper := t_mapper t; t_pc := pc' |}]> (threads s);
                 halted := hl |}.
Proof.
  intros Hph Hi Hold1 Hold2 Hnew1 Hnew2 Hreg Hcnt.
  destruct ph; unfold phase_ok in *; simpl; rewrite Hreg, Hcnt.
  - destruct Hph as (? & ? & ? & ? & ?).
    split_and!; try done; by apply none_at_insert.
  - destruct Hph as (? & ? & ? & [k Hk] & ?).
    split_and!; try done; [|by apply none_at_insert].
    exists k. by eapply only_at_insert_other.
  - destruct Hph as (? & ? & ? & ? & ?).
    split_and!; try done; by apply none_at_insert.
  - destruct Hph as (? & ? & ? & ? & ?).
    split_and!; try done; [by apply none_at_insert|].
    by eapply some_at_insert.
Qed.

Lemma thread_step_pc_plain o w m pc w' m' pc' :
  thread_step o w m pc = Some (w', m', pc') →
  pc ≠ pc_cas → pc ≠ pc_construct →
  pc ≠ pc_exit Throws ∧ pc' ≠ pc_construct ∧ pc' ≠ pc_exit Throws.
Proof.
  destruct pc; simpl; try done.
  - destruct (g_init_flag m); intros [= <- <- <-] || done; done.
  - case_bool_decide; by intros [= <- <- <-].
  - case_bool_decide; by intros [= <- <- <-].
  - case_bool_decide; by intros [= <- <- <-].
  - by intros [= <- <- <-].
  - by intros [= <- <- <-].
  - intros [= <- <- <-] _ _. split_and!; try done.
    unfold deref_storage. by case_bool_decide.
Qed.

Lemma sys_step_phase i o s s' :
  Inv s → sys_step i o s = Some s' → ∃ ph, phase_ok ph s'.
Proof.
  intros [Hvm Hth _ _ [ph Hph]]
    (t & m & w' & m' & pc' & _ & _ & Hi & Hm & Hstep & ->)%sys_step_Some.
  destruct (decide (t_pc t = pc_cas)) as [Hcas|Hncas];
    [|destruct (decide (t_pc t = pc_construct)) as [Hcon|Hncon]].
  - (* the compare-exchange *)
    assert (Hne : t_pc t ≠ pc_call_once) by (by rewrite Hcas).
    destruct (Hth _ _ Hi Hne) as (m0 & Hm0 & Hok).
    rewrite Hm in Hm0. injection Hm0 as <-.
    rewrite Hcas in Hstep, Hok. simpl in Hstep, Hok.
    destruct Hok as (_ & Hshm & _).
    unfold cas_initialized in Hstep.
    destruct (initialized (region (world s))) eqn:Hflag;
      injection Hstep as <- <- <-.
    + exists ph. apply phase_ok_frame; try done; try (by rewrite Hcas).
      simpl_world. lia.
    + exists Claimed. destruct ph; unfold phase_ok in Hph;
        try (destruct Hph as (? & _); congruence).
      destruct Hph as (_ & Hst & Hc & Hnone & Hthr).
      unfold phase_ok; simpl. simpl_world.
      rewrite region_set_region by done. simpl.
      split_and!; try done; [lia| |by apply none_at_insert].
      exists i. by eapply only_at_insert_enter.
  - (* the placement-new *)
    assert (Hne : t_pc t ≠ pc_call_once) by (by rewrite Hcon).
    destruct (Hth _ _ Hi Hne) as (m0 & Hm0 & Hok).
    rewrite Hm in Hm0. injection Hm0 as <-.
    rewrite Hcon in Hstep, Hok. simpl in Hstep, Hok.
    destruct Hok as (_ & _ & Hflag).
    assert (Hcl : phase_ok Claimed s).
    { destruct ph; try done; unfold phase_ok in Hph;
        destruct Hph as (_ & _ & _ & Hnone & _); by destruct (Hnone _ _ Hi). }
    destruct Hcl as (_ & Hst & Hc & [k Hk] & Hthr).
    destruct (payload_ctor m) eqn:Hctor; injection Hstep as <- <- <-.
    + exists Built. unfold phase_ok, placement_new; simpl. simpl_world.
      rewrite region_set_region by by apply shm_some_of_flag. simpl.
      split_and!; try done; [lia| |by apply none_at_insert].
      by eapply only_at_insert_leave.
    + exists Poisoned. unfold phase_ok; simpl.
      split_and!; try done; [by eapply only_at_insert_leave|].
      exists i, {| t_mapper := t_mapper t; t_pc := pc_exit Throws |}.
      split; [|done].
      apply list_lookup_insert_eq. by eapply lookup_lt_Some.
  - (* any other statement *)
    destruct (thread_step_region _ _ _ _ _ _ _ Hstep Hncas Hncon) as [Hreg Hcnt].
    destruct (thread_step_pc_plain _ _ _ _ _ _ _ Hstep Hncas Hncon)
      as (? & ? & ?).
    exists ph. by apply phase_ok_frame.
Qed.

Lemma in_init_not_call_once pc : in_init pc = true → pc ≠ pc_call_once.
Proof. by destruct pc. Qed.

(** Another thread of the mapper cannot be inside [init_shm_block] when
    this one enters or is inside. *)
Lemma excl_other s i j t tj m o w' m' pc' :
  Inv s →
  threads s !! i = Some t → threads s !! j = Some tj → i ≠ j →
  mappers s !! t_mapper t = Some m →
  thread_step o (world s) m (t_pc t) = Some (w', m', pc') →
  in_init pc' = true → t_mapper tj = t_mapper t →
  in_init (t_pc tj) = false.
Proof.
  intros [_ Hth _ Hex _] Hi Hj Hne Hm Hstep Hin' Hmap.
  destruct (in_init (t_pc tj)) eqn:Hin; [exfalso|done].
  destruct (Hth _ _ Hj (in_init_not_call_once _ Hin)) as (mj & Hmj & Hokj).
  rewrite Hmap, Hm in Hmj. injection Hmj as <-.
  pose proof (thread_ok_in_init _ _ _ Hokj Hin) as Hrun.
  destruct (thread_step_in_init _ _ _ _ _ _ _ Hstep Hin') as [Hini|[_ Hfresh]].
  - apply Hne. by eapply Hex.
  - congruence.
Qed.

Lemma sys_step_inv i o s s' : Inv s → sys_step i o s = Some s' → Inv s'.
Proof.
  intros HInv Hsys.
  pose proof (sys_step_phase _ _ _ _ HInv Hsys) as Hph'.
  pose proof HInv as [Hvm Hth Hmp Hex _].
  apply sys_step_Some in Hsys
    as (t & m & w' & m' & pc' & _ & Hplaus & Hi & Hm & Hstep & ->).
  assert (Hokt : t_pc t ≠ pc_call_once → thread_ok (world s) m (t_pc t)).
  { intros Hne. destruct (Hth _ _ Hi Hne) as (m0 & Hm0 & Hok). congruence. }
  pose proof (thread_step_world_le _ _ _ _ _ _ _ Hstep) as Hle.
  destruct (thread_step_ok _ _ _ _ _ _ _ Hstep Hokt (Hmp _ _ Hm) Hvm)
    as (Hne' & Hok' & Hmok').
  pose proof (thread_step_mapper _ _ _ _ _ _ _ Hstep Hokt) as Hchg.
  assert (Hlt : t_mapper t < length (mappers s)) by by eapply lookup_lt_Some.
  split; simpl.
  - by eapply thread_step_vm_ok.
  - intros j tj [(-> & <- & _)|[Hne Hj]]%list_lookup_insert_Some Hnej; simpl.
    { exists m'. by rewrite list_lookup_insert_eq. }
    destruct (Hth _ _ Hj Hnej) as (mj & Hmj & Hokj).
    destruct (decide (t_mapper tj = t_mapper t)) as [Heq|Hneq].
    + rewrite Heq, Hm in Hmj. injection Hmj as <-.
      exists m'. rewrite Heq, list_lookup_insert_eq by done. split; [done|].
      destruct Hchg as [->|(Hctor & Hcase)]; [by eapply thread_ok_mono|].
      apply (thread_ok_other (world s) _ m); try done.
      * by destruct Hcase as [[-> _]|[-> _]].
      * destruct (in_init (t_pc tj)) eqn:Hin; [exfalso|done].
        pose proof (thread_ok_in_init _ _ _ Hokj Hin) as Hrun.
        destruct Hcase as [[Hfresh _]|[_ Hini]]; [congruence|].
        apply Hne. by eapply Hex.
    + exists mj. rewrite list_lookup_insert_ne by done.
      split; [done|]. by eapply thread_ok_mono.
  - intros k mk [(<- & <- & _)|[Hnek Hk]]%list_lookup_insert_Some; [done|].
    eapply mapper_ok_mono; eauto.
  - intros j1 j2 t1 t2
      [(-> & <- & _)|[Hne1 H1]]%list_lookup_insert_Some
      [(-> & <- & _)|[Hne2 H2]]%list_lookup_insert_Some; simpl;
      intros Hin1 Hin2 Hmap; try done.
    + pose proof (excl_other _ _ _ _ _ _ _ _ _ _ HInv Hi H2 Hne2 Hm Hstep Hin1
                    (eq_sym Hmap)). congruence.
    + pose proof (excl_other _ _ _ _ _ _ _ _ _ _ HInv Hi H1 Hne1 Hm Hstep Hin2
                    Hmap). congruence.
    + by eapply Hex.
  - done.
Qed.

Lemma rtc_step_inv s s' : Inv s → rtc step s s' → Inv s'.
Proof.
  intros HInv Hrtc. induction Hrtc as [|s1 s2 s3 (i & o & Hstep) _ IH]; [done|].
  apply IH. by eapply sys_step_inv.
Qed.

Lemma run_schedule_rtc sch s s' : run_schedule sch s = Some s' → rtc step s s'.
Proof.
  revert s. induction sch as [|[i o] sch IH]; intros s; simpl.
  - intros [= ->]. apply rtc_refl.
  - destruct (sys_step i o s) as [s1|] eqn:Hstep; [|done].
    intros Hrun. eapply rtc_l; [by exists i, o|by apply IH].
Qed.

(** ** The initial state *)

Lemma boot_inv w ctors tm :
  consistent w → vm_ok (vm w) → Inv (boot w ctors tm).
Proof.
  intros Hcons Hvm.
  assert (Hcall : ∀ j t,
    threads (boot w ctors tm) !! j = Some t → t_pc t = pc_call_once).
  { unfold boot; simpl. intros j t.
    rewrite list_lookup_fmap. by intros (k & _ & ->)%fmap_Some. }
  split; simpl.
  - done.
  - intros i t Hi Hne. by destruct Hne, (Hcall i t).
  - unfold boot; simpl. intros k m.
    rewrite list_lookup_fmap. by intros (c & _ & ->)%fmap_Some.
  - intros i j ti tj Hi Hj Hin. by rewrite (Hcall _ _ Hi) in Hin.
  - assert (Hnone : ∀ pc, pc ≠ pc_call_once →
                          none_at pc (threads (boot w ctors tm))).
    { intros pc Hpc j t Hj. by rewrite (Hcall _ _ Hj). }
    destruct Hcons as [(? & ? & ?)|(? & ? & ?)].
    + exists Untouched. split_and!; try done; by apply Hnone.
    + exists Built. split_and!; try done; by apply Hnone.
Qed.

(** ** Consequences of the invariant *)

Lemma phase_constructions_le ph s : phase_ok ph s → constructions (world s) ≤ 1.
Proof. destruct ph; unfold phase_ok; intros (_ & _ & -> & _); lia. Qed.

(** A finished call holds the storage address of its mapper's mapping. *)
Lemma returned_ref s i t r :
  Inv s → threads s !! i = Some t → t_pc t = pc_exit (Returns r) →
  ∃ m, mappers s !! t_mapper t = Some m ∧
       g_init_flag m = OnceDone ∧
       r = (g_block m + storage_offset)%Z ∧
       g_block m ∈ vm (world s) ∧
       initialized (region (world s)) = true.
Proof.
  intros [_ Hth Hmp _ _] Hi Hpc.
  destruct (Hth _ _ Hi) as (m & Hm & Hok); [by rewrite Hpc|].
  rewrite Hpc in Hok. destruct Hok as [Hdone ->].
  destruct (Hmp _ _ Hm Hdone) as [Hin Hflag]. by exists m.
Qed.

Lemma all_returned_lookup s i t :
  all_returned s → threads s !! i = Some t → ∃ r, t_pc t = pc_exit (Returns r).
Proof.
  unfold all_returned. rewrite Forall_lookup. intros Hall Hi.
  specialize (Hall _ _ Hi). unfold is_returned in Hall.
  destruct (t_pc t) as [| | | | | | | | |[]]; try done. eauto.
Qed.

(** Once every call has returned, the payload has been built, once. *)
Lemma all_returned_built s :
  Inv s → all_returned s → threads s ≠ [] → phase_ok Built s.
Proof.
  intros HInv Hall Hne.
  destruct (threads s) as [|t0 ts] eqn:Hts; [done|].
  assert (H0 : threads s !! 0 = Some t0) by by rewrite Hts.
  destruct (all_returned_lookup _ _ _ Hall H0) as [r Hr].
  destruct (returned_ref _ _ _ _ HInv H0 Hr) as (m & _ & _ & _ & _ & Hflag).
  destruct HInv as [_ _ _ _ [ph Hph]].
  destruct ph; [| |done|]; exfalso; unfold phase_ok in Hph.
  - destruct Hph as (? & _). congruence.
  - destruct Hph as (_ & _ & _ & [k [(tk & Hk & Hpc) _]] & _).
    destruct (all_returned_lookup _ _ _ Hall Hk). congruence.
  - destruct Hph as (_ & _ & _ & _ & (k & tk & Hk & Hpc)).
    destruct (all_returned_lookup _ _ _ Hall Hk). congruence.
Qed.

Lemma sys_step_threads_length i o s s' :
  sys_step i o s = Some s' → length (threads s') = length (threads s).
Proof.
  intros (t & m & w' & m' & pc' & _ & _ & _ & _ & _ & ->)%sys_step_Some.
  simpl. apply length_insert.
Qed.

Lemma rtc_step_threads_length s s' :
  rtc step s s' → length (threads s') = length (threads s).
Proof.
  induction 1 as [|s1 s2 s3 (i & o & Hstep) _ IH]; [done|].
  rewrite IH. by eapply sys_step_threads_length.
Qed.

(** A finished thread stays as it is. *)
Lemma sys_step_exit_stays i o s s' j t out :
  sys_step i o s = Some s' →
  threads s !! j = Some t → t_pc t = pc_exit out → threads s' !! j = Some t.
Proof.
  intros (ti & m & w' & m' & pc' & _ & _ & Hi & _ & Hstep & ->)%sys_step_Some
    Hj Hpc. simpl.
  destruct (decide (i = j)) as [->|Hne]; [|by rewrite list_lookup_insert_ne].
  rewrite Hj in Hi. injection Hi as <-. by rewrite Hpc in Hstep.
Qed.

Lemma rtc_step_exit_stays s s' j t out :
  rtc step s s' →
  threads s !! j = Some t → t_pc t = pc_exit out → threads s' !! j = Some t.
Proof.
  induction 1 as [|s1 s2 s3 (i & o & Hstep) _ IH]; [done|].
  intros Hj Hpc. apply IH; [|done]. by eapply sys_step_exit_stays.
Qed.

(** ** A complete run exists for every number of threads *)

Lemma run_schedule_app sch1 sch2 s s1 s2 :
  run_schedule sch1 s = Some s1 → run_schedule sch2 s1 = Some s2 →
  run_schedule (sch1 ++ sch2) s = Some s2.
Proof.
  revert s. induction sch1 as [|[i o] sch1 IH]; intros s; simpl.
  - by intros [= ->].
  - destruct (sys_step i o s); [apply IH|done].
Qed.

(** The first caller initialises: nine steps of thread 0. *)
Lemma first_caller_initialises (rest : list Thread) :
  run_schedule (turns 9 0 os_a)
    {| world := fresh_world;
       mappers := [fresh_mapper shared_memory_ctor];
       threads := {| t_mapper := 0; t_pc := pc_call_once |} :: rest;
       halted := false |} =
  Some {| world := (get_shm_logger os_a (fresh_mapper shared_memory_ctor) fresh_world).2;
          mappers := [(get_shm_logger os_a (fresh_mapper shared_memory_ctor) fresh_world).1.2];
          threads := {| t_mapper := 0; t_pc := pc_exit (Returns 4160) |} :: rest;
          halted := false |}.
Proof. reflexivity. Qed.

(** A later caller passes [call_once] and returns: two steps. *)
Lemma later_caller_passes (w : World) (a : Z) (c : Constructor)
    (done rest : list Thread) :
  a ≠ nullptr →
  run_schedule (turns 2 (length done) os_a)
    {| world := w;
       mappers := [{| g_block := a; g_init_flag := OnceDone; payload_ctor := c |}];
       threads := done ++ {| t_mapper := 0; t_pc := pc_call_once |} :: rest;
       halted := false |} =
  Some {| world := w;
          mappers := [{| g_block := a; g_init_flag := OnceDone; payload_ctor := c |}];
          threads := (done ++ [{| t_mapper := 0;
                                  t_pc := pc_exit (Returns (a + storage_offset)) |}]) ++ rest;
          halted := false |}.
Proof.
  intros Ha. unfold turns; simpl. unfold sys_step at 1; simpl.
  rewrite list_lookup_middle by done. simpl.
  unfold sys_step; simpl.
  rewrite insert_app_r_alt, Nat.sub_diag by done. simpl.
  rewrite list_lookup_middle by done. simpl.
  rewrite insert_app_r_alt, Nat.sub_diag by done. simpl.
  unfold deref_storage; simpl. rewrite bool_decide_eq_false_2 by done.
  by rewrite <- app_assoc.
Qed.

Lemma later_callers_pass (w : World) (a : Z) (c : Constructor) (k : nat) :
  a ≠ nullptr → ∀ done : list Thread,
  ∃ sch,
    run_schedule sch
      {| world := w;
         mappers := [{| g_block := a; g_init_flag := OnceDone; payload_ctor := c |}];
         threads := done ++ replicate k {| t_mapper := 0; t_pc := pc_call_once |};
         halted := false |} =
    Some {| world := w;
            mappers := [{| g_block := a; g_init_flag := OnceDone; payload_ctor := c |}];
            threads := done ++ replicate k {| t_mapper := 0;
                                              t_pc := pc_exit (Returns (a + storage_offset)) |};
            halted := false |}.
Proof.
  intros Ha. induction k as [|k IH]; intros done.
  - by exists [].
  - destruct (IH (done ++ [{| t_mapper := 0;
                              t_pc := pc_exit (Returns (a + storage_offset)) |}]))
      as [sch Hsch].
    exists (turns 2 (length done) os_a ++ sch).
    eapply run_schedule_app; [by apply later_caller_passes|].
    simpl. rewrite <- !app_assoc in Hsch. simpl in Hsch.
    by rewrite <- app_assoc.
Qed.

(** For every [n >= 1] some schedule lets all [n] callers of one mapper
    return, starting from nothing. *)
Lemma complete_run_exists (n : nat) :
  0 < n →
  ∃ sch s,
    run_schedule sch (boot fresh_world [shared_memory_ctor] (replicate n 0)) = Some s ∧
    all_returned s.
Proof.
  destruct n as [|n]; [lia|]. intros _.
  destruct (later_callers_pass
              (get_shm_logger os_a (fresh_mapper shared_memory_ctor) fresh_world).2
              4096 shared_memory_ctor n ltac:(done)
              [{| t_mapper := 0; t_pc := pc_exit (Returns 4160) |}])
    as [sch Hsch].
  eexists (turns 9 0 os_a ++ sch), _. split.
  - eapply run_schedule_app; [|exact Hsch].
    unfold boot. rewrite !fmap_replicate. simpl. apply first_caller_initialises.
  - unfold all_returned; simpl. constructor; [done|].
    by apply Forall_replicate.
Qed.

(** * The claims about concurrent callers *)

(** C1. [n >= 1] threads of one mapper call [get_shm_logger], in any
    interleaving and with any kernel answers, on a world whose history
    agrees with the flag.  At no point has the payload been constructed
    more than once, and once all [n] calls have returned it has been
    constructed exactly once. *)
Theorem one_mapper_constructs_exactly_once
    (n : nat) (c : Constructor) (w0 : World) (s : System) :
  0 < n → consistent w0 → vm_ok (vm w0) →
  rtc step (boot w0 [c] (replicate n 0)) s →
  constructions (world s) ≤ 1 ∧
  (all_returned s → constructions (world s) = 1).
Proof.
  intros Hn Hcons Hvm Hrtc.
  assert (HInv : Inv s) by (eapply rtc_step_inv; [by apply boot_inv|done]).
  split.
  - destruct HInv as [_ _ _ _ [ph Hph]]. by eapply phase_constructions_le.
  - intros Hall.
    assert (Hne : threads s ≠ []).
    { apply rtc_step_threads_length in Hrtc. simpl in Hrtc.
      rewrite length_fmap, length_replicate in Hrtc.
      intros Hnil. rewrite Hnil in Hrtc. simpl in Hrtc. lia. }
    by destruct (all_returned_built _ HInv Hall Hne) as (_ & _ & ? & _).
Qed.

(** C6. Threads of any number of mappers call [get_shm_logger] on the same
    named object, in any interleaving.  Every returned reference resolves,
    through the live mappings, to the storage offset of the one shared
    object; two callers of the same mapper hold the same address; and once
    all calls have returned the payload has been constructed exactly once
    in total. *)
Theorem all_callers_share_one_payload
    (ctors : list Constructor) (tm : list nat) (w0 : World) (s : System) :
  tm ≠ [] → consistent w0 → vm_ok (vm w0) →
  rtc step (boot w0 ctors tm) s →
  (∀ i ti ri, threads s !! i = Some ti → t_pc ti = pc_exit (Returns ri) →
     resolve (world s) ri = Some storage_offset) ∧
  (∀ i j ti tj ri rj,
     threads s !! i = Some ti → threads s !! j = Some tj →
     t_pc ti = pc_exit (Returns ri) → t_pc tj = pc_exit (Returns rj) →
     t_mapper ti = t_mapper tj → ri = rj) ∧
  (all_returned s → constructions (world s) = 1).
Proof.
  intros Htm Hcons Hvm Hrtc.
  assert (HInv : Inv s) by (eapply rtc_step_inv; [by apply boot_inv|done]).
  split_and!.
  - intros i ti ri Hi Hpc.
    destruct (returned_ref _ _ _ _ HInv Hi Hpc) as (m & _ & _ & -> & Hin & _).
    apply resolve_storage; [by destruct HInv|done].
  - intros i j ti tj ri rj Hi Hj Hpci Hpcj Hmap.
    destruct (returned_ref _ _ _ _ HInv Hi Hpci) as (mi & Hmi & _ & -> & _).
    destruct (returned_ref _ _ _ _ HInv Hj Hpcj) as (mj & Hmj & _ & -> & _).
    rewrite Hmap, Hmj in Hmi. by injection Hmi as ->.
  - intros Hall.
    assert (Hne : threads s ≠ []).
    { apply rtc_step_threads_length in Hrtc. simpl in Hrtc.
      rewrite length_fmap in Hrtc.
      intros Hnil. rewrite Hnil in Hrtc. by destruct tm. }
    by destruct (all_returned_built _ HInv Hall Hne) as (_ & _ & ? & _).
Qed.

(** C3. Suppose the constructor of some caller has failed: a thread has
    left [get_shm_logger] by the constructor's exception.  Then the flag is
    already set, and in every later state the block is unchanged with its
    payload never constructed, no constructor has run, no thread is at the
    placement-new (every later compare-exchange finds the flag set), and
    every reference returned to a caller denotes the storage of that
    never-constructed payload. *)
Theorem failed_constructor_is_never_retried
    (ctors : list Constructor) (tm : list nat) (w0 : World) (s s' : System) :
  consistent w0 → vm_ok (vm w0) →
  rtc step (boot w0 ctors tm) s →
  (∃ i t, threads s !! i = Some t ∧ t_pc t = pc_exit Throws) →
  rtc step s s' →
  initialized (region (world s)) = true ∧
  region (world s') = region (world s) ∧
  storage (region (world s')) = None ∧
  constructions (world s') = 0 ∧
  none_at pc_construct (threads s') ∧
  (∀ j t r, threads s' !! j = Some t → t_pc t = pc_exit (Returns r) →
     resolve (world s') r = Some storage_offset).
Proof.
  intros Hcons Hvm Hrtc (i & t & Hi & Hpc) Hrtc'.
  assert (HInv : Inv s) by (eapply rtc_step_inv; [by apply boot_inv|done]).
  assert (HInv' : Inv s') by by eapply rtc_step_inv.
  assert (Hpoison : ∀ s1, Inv s1 → threads s1 !! i = Some t →
                          phase_ok Poisoned s1).
  { intros s1 [_ _ _ _ [ph Hph]] Hi1.
    destruct ph; [| | |done]; unfold phase_ok in Hph;
      destruct Hph as (_ & _ & _ & _ & Hnone); by destruct (Hnone _ _ Hi1). }
  destruct (Hpoison _ HInv Hi) as (Hf & Hs & _).
  destruct (Hpoison _ HInv' (rtc_step_exit_stays _ _ _ _ _ Hrtc' Hi Hpc))
    as (Hf' & Hs' & Hc' & Hnone' & _).
  split_and!; try done.
  - destruct (region (world s)), (region (world s')); simpl in *. congruence.
  - intros j tj r Hj Hr.
    destruct (returned_ref _ _ _ _ HInv' Hj Hr) as (m & _ & _ & -> & Hin & _).
    apply resolve_storage; [by destruct HInv'|done].
Qed.

(** ** The order of flag write and construction *)

Lemma thread_step_constructs o w m pc w' m' pc' :
  thread_step o w m pc = Some (w', m', pc') →
  constructions w' ≠ constructions w →
  pc = pc_construct.
Proof.
  intros Hstep Hcnt.
  destruct (decide (pc = pc_construct)) as [|Hncon]; [done|].
  destruct (decide (pc = pc_cas)) as [->|Hncas].
  - revert Hstep. simpl. unfold cas_initialized.
    destruct (initialized (region w)); intros [= <- <- <-];
      revert Hcnt; simpl_world; lia.
  - by destruct (thread_step_region _ _ _ _ _ _ _ Hstep Hncas Hncon).
Qed.

Lemma thread_step_done o w m pc w' m' pc' :
  thread_step o w m pc = Some (w', m', pc') →
  g_init_flag m' = OnceDone →
  g_init_flag m = OnceDone ∨ pc = pc_init_return ∧ w' = w.
Proof.
  destruct pc; simpl.
  - destruct (g_init_flag m) eqn:Hflag; intros [= <- <- <-] || done; simpl;
      by (done || left).
  - case_bool_decide; intros [= <- <- <-]; by left.
  - case_bool_decide; intros [= <- <- <-]; by left.
  - case_bool_decide; intros [= <- <- <-]; by left.
  - intros [= <- <- <-]; by left.
  - unfold cas_initialized.
    destruct (initialized (region w)); intros [= <- <- <-]; by left.
  - destruct (payload_ctor m); intros [= <- <- <-]; simpl; by (done || left).
  - intros [= <- <- <-]; by right.
  - intros [= <- <- <-]; by left.
  - done.
Qed.

Lemma thread_step_to_init_return o w m pc w' m' :
  thread_step o w m pc = Some (w', m', pc_init_return) →
  pc = pc_cas ∧ initialized (region w) = true ∧ region w' = region w ∨
  pc = pc_construct ∧
    (initialized (region w) = true → is_Some (storage (region w'))).
Proof.
  destruct pc; simpl; try done.
  - by destruct (g_init_flag m).
  - by case_bool_decide.
  - by case_bool_decide.
  - by case_bool_decide.
  - unfold cas_initialized.
    destruct (initialized (region w)) eqn:Hflag; intros [= <- <-]; by left.
  - destruct (payload_ctor m); intros [= <- <-] || done. right.
    split; [done|]. intros Hflag. unfold placement_new. simpl_world.
    rewrite region_set_region by by apply shm_some_of_flag. simpl. eauto.
Qed.

Lemma sys_step_one_mapper i o s s' :
  Inv s → OneMapperInv s → sys_step i o s = Some s' → OneMapperInv s'.
Proof.
  intros HInv [Hth0 Hctor Hdone Hret] Hsys.
  pose proof HInv as [_ Hth _ Hex [ph Hph]].
  apply sys_step_Some in Hsys
    as (t & m & w' & m' & pc' & _ & _ & Hi & Hm & Hstep & ->).
  pose proof (Hth0 _ _ Hi) as Ht0. rewrite Ht0 in Hm.
  assert (Hokt : t_pc t ≠ pc_call_once → thread_ok (world s) m (t_pc t)).
  { intros Hne. destruct (Hth _ _ Hi Hne) as (m0 & Hm0 & Hok).
    rewrite Ht0 in Hm0. congruence. }
  assert (Hlt : 0 < length (mappers s)) by by eapply lookup_lt_Some.
  destruct (thread_step_persists _ _ _ _ _ _ _ Hstep) as (_ & _ & Hkeep).
  split; simpl.
  - intros j tj [(-> & <- & _)|[_ Hj]]%list_lookup_insert_Some; simpl; eauto.
  - intros m0. rewrite Ht0, list_lookup_insert_eq by done. intros [= <-].
    destruct (thread_step_mapper _ _ _ _ _ _ _ Hstep Hokt) as [->|[-> _]];
      by apply Hctor.
  - intros m0. rewrite Ht0, list_lookup_insert_eq by done. intros [= <-] Hd.
    destruct (thread_step_done _ _ _ _ _ _ _ Hstep Hd) as [Hd0|[Hpc ->]].
    + apply Hkeep. by eapply Hdone.
    + by eapply Hret.
  - intros j tj [(<- & <- & _)|[Hne Hj]]%list_lookup_insert_Some; simpl.
    2: { intros Hpc. apply Hkeep. by eapply Hret. }
    intros ->.
    destruct (thread_step_to_init_return _ _ _ _ _ _ Hstep)
      as [(Hpc & Hflag & Hreg)|(Hpc & Hbuilt)].
    + rewrite Hreg.
      destruct ph; unfold phase_ok in Hph.
      * destruct Hph as (? & _). congruence.
      * destruct Hph as (_ & _ & _ & [k [(tk & Hk & Hpck) _]] & _).
        exfalso. assert (i = k); [|congruence].
        eapply Hex; try done; [by rewrite Hpc|by rewrite Hpck|].
        by rewrite Ht0, (Hth0 _ _ Hk).
      * by destruct Hph as (_ & ? & _).
      * destruct Hph as (_ & _ & _ & _ & (k & tk & Hk & Hpck)).
        exfalso. destruct (Hth _ _ Hk) as (mk & Hmk & Hokk); [by rewrite Hpck|].
        rewrite Hpck in Hokk. simpl in Hokk.
        rewrite (Hth0 _ _ Hk) in Hmk. by eapply Hctor.
    + apply Hbuilt. specialize (Hokt ltac:(by rewrite Hpc)).
      rewrite Hpc in Hokt. by destruct Hokt as (_ & _ & ?).
Qed.

Lemma boot_one_mapper w c n :
  nonthrowing c = true → consistent w →
  OneMapperInv (boot w [c] (replicate n 0)).
Proof.
  intros Hc Hcons.
  assert (Hcall : ∀ j t,
    threads (boot w [c] (replicate n 0)) !! j = Some t →
    t_pc t = pc_call_once ∧ t_mapper t = 0).
  { unfold boot; simpl. intros j t. rewrite list_lookup_fmap.
    intros (k & [-> _]%lookup_replicate & ->)%fmap_Some. done. }
  split; simpl.
  - intros i t Hi. by destruct (Hcall _ _ Hi).
  - intros m [= <-]. simpl. by destruct c.
  - by intros m [= <-].
  - intros i t Hi Hpc. destruct (Hcall _ _ Hi). congruence.
Qed.

Lemma rtc_step_one_mapper s s' :
  Inv s → OneMapperInv s → rtc step s s' → OneMapperInv s'.
Proof.
  intros HInv Hom Hrtc. induction Hrtc as [|s1 s2 s3 (i & o & Hstep) _ IH];
    [done|].
  apply IH; [by eapply sys_step_inv|by eapply sys_step_one_mapper].
Qed.

(** C2, as the code has it.  The flag is written before the construction,
    not after: whenever a step constructs the payload, the flag is already
    set and the payload not yet constructed in the state before that step.
    What still holds is the guarantee inside one mapper with a constructor
    that does not throw: a caller whose call has returned sees the payload
    constructed, because [std::call_once] lets it pass only after the
    guarded section, construction included, has completed. *)
Theorem flag_is_set_before_construction
    (ctors : list Constructor) (tm : list nat) (w0 : World) (s s' : System) :
  consistent w0 → vm_ok (vm w0) →
  rtc step (boot w0 ctors tm) s →
  (step s s' → constructions (world s') ≠ constructions (world s) →
   initialized (region (world s)) = true ∧
   storage (region (world s)) = None ∧
   is_Some (storage (region (world s')))) ∧
  (∀ c n, ctors = [c] → tm = replicate n 0 → nonthrowing c = true →
     ∀ i t r, threads s !! i = Some t → t_pc t = pc_exit (Returns r) →
       is_Some (storage (region (world s)))).
Proof.
  intros Hcons Hvm Hrtc.
  assert (HInv : Inv s) by (eapply rtc_step_inv; [by apply boot_inv|done]).
  split.
  - intros (i & o & Hsys) Hcnt.
    assert (HInv' : Inv s') by by eapply sys_step_inv.
    pose proof HInv as [_ Hth _ _ [ph Hph]].
    apply sys_step_Some in Hsys
      as (t & m & w' & m' & pc' & _ & _ & Hi & Hm & Hstep & ->).
    simpl in Hcnt.
    pose proof (thread_step_constructs _ _ _ _ _ _ _ Hstep Hcnt) as Hpc.
    destruct (Hth _ _ Hi) as (m0 & Hm0 & Hok); [by rewrite Hpc|].
    rewrite Hpc in Hok. destruct Hok as (_ & _ & Hflag).
    assert (Hst : storage (region (world s)) = None).
    { destruct ph; unfold phase_ok in Hph.
      - by destruct Hph as (_ & ? & _).
      - by destruct Hph as (_ & ? & _).
      - destruct Hph as (_ & _ & _ & Hnone & _). by destruct (Hnone _ _ Hi).
      - by destruct Hph as (_ & ? & _). }
    split_and!; try done. simpl.
    rewrite Hpc in Hstep. simpl in Hstep.
    destruct (payload_ctor m); injection Hstep as <- <- <-; [|done].
    unfold placement_new. simpl_world.
    rewrite region_set_region by by apply shm_some_of_flag. simpl. eauto.
  - intros c n -> -> Hc i t r Hi Hpc.
    assert (Hom : OneMapperInv s).
    { eapply rtc_step_one_mapper; [by apply boot_inv|by apply boot_one_mapper|done]. }
    destruct (returned_ref _ _ _ _ HInv Hi Hpc) as (m & Hm & Hdone & _).
    destruct Hom as [Hth0 _ Hd _]. rewrite (Hth0 _ _ Hi) in Hm. by eapply Hd.
Qed.

Lemma one_mapper_constructs_exactly_once_witness :
  ∃ s, run_schedule schedule_one_mapper
         (boot fresh_world [shared_memory_ctor] (replicate 3 0)) = Some s ∧
       all_returned s ∧ constructions (world s) = 1.
Proof.
  eexists. split; [vm_compute; reflexivity|].
  assert (Hall : all_returned
    (default (boot fresh_world [] [])
       (run_schedule schedule_one_mapper
          (boot fresh_world [shared_memory_ctor] (replicate 3 0))))).
  { vm_compute. by repeat constructor. }
  split; [exact Hall|].
  apply (one_mapper_constructs_exactly_once 3 shared_memory_ctor fresh_world);
    [lia|by left|done| |exact Hall].
  apply (run_schedule_rtc schedule_one_mapper). vm_compute. reflexivity.
Defined.

Lemma all_callers_share_one_payload_witness :
  ∃ s, run_schedule schedule_two_mappers
         (boot fresh_world [Build (lit 20480 "first"); Build (lit 24576 "second")]
            [0; 1; 0]) = Some s ∧
       (t_pc <$> threads s) =
         [pc_exit (Returns 4160); pc_exit (Returns 8256); pc_exit (Returns 4160)] ∧
       resolve (world s) 4160 = Some storage_offset ∧
       resolve (world s) 8256 = Some storage_offset ∧
       constructions (world s) = 1.
Proof.
  eexists. split; [vm_compute; reflexivity|].
  split; [reflexivity|].
  match goal with |- context [world ?s] =>
    destruct (all_callers_share_one_payload
                [Build (lit 20480 "first"); Build (lit 24576 "second")] [0; 1; 0] fresh_world s)
      as (Hres & _ & Hone)
  end; [done|by left|done| |].
  { apply (run_schedule_rtc schedule_two_mappers). vm_compute. reflexivity. }
  split_and!.
  - by apply (Hres 0 {| t_mapper := 0; t_pc := pc_exit (Returns 4160) |}).
  - by apply (Hres 1 {| t_mapper := 1; t_pc := pc_exit (Returns 8256) |}).
  - apply Hone. by repeat constructor.
Defined.

(** C2 as stated fails: after thread 0 of mapper 0 has won the
    compare-exchange and before it constructs, thread 1 of mapper 1 finds
    the flag set and returns a reference, while the payload is not
    constructed. *)
Lemma flag_set_payload_missing :
  ∃ s t r,
    run_schedule schedule_early_return
      (boot fresh_world [shared_memory_ctor; shared_memory_ctor_2] [0; 1]) = Some s ∧
    threads s !! 1 = Some t ∧ t_pc t = pc_exit (Returns r) ∧
    ¬ flag_means_constructed s.
Proof.
  eexists _, _, _. split; [vm_compute; reflexivity|].
  split; [reflexivity|]. split; [reflexivity|].
  unfold flag_means_constructed. simpl. intros H.
  by destruct (H eq_refl) as [? [=]].
Qed.

Lemma flag_is_set_before_construction_witness :
  ∃ s s',
    run_schedule schedule_claim
      (boot fresh_world [shared_memory_ctor] (replicate 2 0)) = Some s ∧
    sys_step 0 os_a s = Some s' ∧
    initialized (region (world s)) = true ∧
    storage (region (world s)) = None ∧
    is_Some (storage (region (world s'))).
Proof.
  eexists _, _. split; [vm_compute; reflexivity|].
  split; [vm_compute; reflexivity|].
  match goal with |- context [is_Some (storage (region (world ?s')))] =>
  match goal with |- context [initialized (region (world ?s))] =>
    destruct (flag_is_set_before_construction
                [shared_memory_ctor] (replicate 2 0) fresh_world s s')
      as [Hstep _]
  end end; [by left|done| |].
  { apply (run_schedule_rtc schedule_claim). vm_compute. reflexivity. }
  apply Hstep.
  - exists 0, os_a. vm_compute. reflexivity.
  - vm_compute. lia.
Defined.

Lemma failed_constructor_is_never_retried_witness :
  ∃ s s',
    run_schedule (turns 7 0 os_a)
      (boot fresh_world [Throw; Build (lit 24576 "second")] [0; 1; 0]) = Some s ∧
    run_schedule schedule_after_throw s = Some s' ∧
    (t_pc <$> threads s') =
      [pc_exit Throws; pc_exit (Returns 8256); pc_exit (Returns 12352)] ∧
    initialized (region (world s)) = true ∧
    region (world s') = region (world s) ∧
    storage (region (world s')) = None ∧
    constructions (world s') = 0 ∧
    resolve (world s') 12352 = Some storage_offset.
Proof.
  eexists _, _. split; [vm_compute; reflexivity|].
  split; [vm_compute; reflexivity|].
  split; [reflexivity|].
  match goal with |- context [region (world ?s') = region (world ?s)] =>
    destruct (failed_constructor_is_never_retried
                [Throw; Build (lit 24576 "second")] [0; 1; 0] fresh_world s s')
      as (Hflag & Hreg & Hst & Hcnt & _ & Hres)
  end; [by left|done| | | |].
  { apply (run_schedule_rtc (turns 7 0 os_a)). vm_compute. reflexivity. }
  { by exists 0, {| t_mapper := 0; t_pc := pc_exit Throws |}. }
  { apply (run_schedule_rtc schedule_after_throw). vm_compute. reflexivity. }
  split_and!; [exact Hflag|exact Hreg|exact Hst|exact Hcnt|].
  by apply (Hres 2 {| t_mapper := 0; t_pc := pc_exit (Returns 12352) |}).
Defined.

(** * The lock-file guard *)

Import SingletonDaemon.

Lemma main_open_failed (pid : Z) (o : SingletonDaemon.OS) (k : Kernel) :
  (os_open o < 0)%Z →
  main pid o k =
    {| exit_code := 1;
       output := [cout_banner; cerr_open_failed (os_open_errno o)];
       kernel_after := k |}.
Proof. intros Hfd. unfold main. by rewrite bool_decide_eq_true_2. Qed.

Lemma main_lock_refused (pid : Z) (o : SingletonDaemon.OS) (k : Kernel) :
  (0 ≤ os_open o)%Z → ¬ lock_granted pid o k →
  exit_code (main pid o k) = 1%Z ∧ kernel_after (main pid o k) = k.
Proof.
  intros Hfd. unfold main, lock_granted, flock_ex_nb.
  rewrite bool_decide_eq_false_2 by lia.
  by destruct (os_flock_fault o), (lock_holder k).
Qed.

Lemma main_lock_granted (pid : Z) (o : SingletonDaemon.OS) (k : Kernel) :
  (0 ≤ os_open o)%Z → lock_granted pid o k →
  exit_code (main pid o k) = 0%Z ∧
  cout_acquired pid ∈ output (main pid o k) ∧
  kernel_after (main pid o k) = {| lock_holder := None |}.
Proof.
  intros Hfd. unfold main, lock_granted, flock_ex_nb.
  rewrite bool_decide_eq_false_2 by lia.
  destruct (os_flock_fault o), (lock_holder k); simpl; try done.
  intros _. split_and!; try done. set_solver.
Qed.

Lemma lock_granted_iff (pid : Z) (o : SingletonDaemon.OS) (k : Kernel) :
  lock_granted pid o k ↔ os_flock_fault o = None ∧ lock_holder k = None.
Proof.
  unfold lock_granted, flock_ex_nb.
  destruct (os_flock_fault o), (lock_holder k); simpl; split; try done;
    by intros [? ?].
Qed.

(** C8. The guard exits with code 0 exactly when [open] succeeded and the
    exclusive lock was granted to it; it exits with code 1 when the lock is
    already held and when the lock file cannot be opened; there is no
    other exit code. *)
Theorem guard_exit_code (pid : Z) (o : SingletonDaemon.OS) (k : Kernel) :
  (exit_code (main pid o k) = 0%Z ↔ (0 ≤ os_open o)%Z ∧ lock_granted pid o k) ∧
  (is_Some (lock_holder k) → exit_code (main pid o k) = 1%Z) ∧
  ((os_open o < 0)%Z → exit_code (main pid o k) = 1%Z) ∧
  (exit_code (main pid o k) = 0%Z ∨ exit_code (main pid o k) = 1%Z).
Proof.
  destruct (decide (os_open o < 0)%Z) as [Hfd|Hfd].
  { rewrite main_open_failed by done. simpl.
    split_and!; [split; [done|lia]|done|done|by right]. }
  destruct (decide ((flock_ex_nb pid o k).1.1 = 0%Z)) as [Hg|Hg];
    fold (lock_granted pid o k) in Hg.
  - destruct (main_lock_granted pid o k) as (-> & _); [lia|done|].
    split_and!; [split; [intros _; split; [lia|done]|done]| |done|by left].
    intros [h Hh]. apply lock_granted_iff in Hg as [_ Hnone]. congruence.
  - destruct (main_lock_refused pid o k) as (-> & _); [lia|done|].
    split_and!; [split; [done|by intros [_ ?]]|done|done|by right].
Qed.

(** While one instance holds the lock, a second one is refused at once. *)
Example second_instance_refused :
  main 200 {| os_open := 3; os_open_errno := 0; os_flock_fault := None |}
           {| lock_holder := Some 100%Z |} =
  {| exit_code := 1;
     output := [cout_banner; cout_attempting 200; cerr_already_running 200];
     kernel_after := {| lock_holder := Some 100%Z |} |}.
Proof. reflexivity. Qed.

Import ShmLoggerUse.

(** * More about single calls of the shared-memory logger *)

(** ** What a caller observes when the flag is already set *)




(** X1. On a first call, when [shm_open] succeeds and [ftruncate] fails,
    the process prints ["ftruncate failed"], closes the descriptor and
    aborts.  Nothing is mapped and the block is untouched, but the named
    object exists afterwards: one that was absent has been created, empty. *)
Theorem get_shm_logger_ftruncate_failure_aborts o m w :
  g_init_flag m = OnceFresh →
  (0 ≤ os_shm_open o)%Z → (os_ftruncate o < 0)%Z →
  ∃ w', get_shm_logger o m w = (Aborts, set_once OnceRunning m, w') ∧
        vm w' = vm w ∧
        region w' = region w ∧
        shm w' = Some (match shm w with
                       | Some obj => obj
                       | None => {| shm_size := 0; shm_block := zero_block |}
                       end) ∧
        trace w' = trace w ++
          [ev_shm_open (os_shm_open o);
           ev_ftruncate (os_shm_open o) (os_ftruncate o);
           ev_perror "ftruncate failed"; ev_close (os_shm_open o); ev_abort].
Proof.
  intros Hfresh Hfd Hft. unfold get_shm_logger, init_shm_block. rewrite Hfresh.
  rewrite bool_decide_eq_false_2 by lia.
  rewrite bool_decide_eq_true_2 by done.
  eexists; split_and!; [done|done| |done|].
  - by simpl_world.
  - simpl. by rewrite <- app_assoc.
Qed.

Lemma get_shm_logger_ftruncate_failure_aborts_witness :
  ∃ w', get_shm_logger {| os_shm_open := 3; os_ftruncate := -1; os_mmap := 4096 |}
          (fresh_mapper shared_memory_ctor) fresh_world =
          (Aborts, set_once OnceRunning (fresh_mapper shared_memory_ctor), w') ∧
        vm w' = [] ∧
        shm w' = Some {| shm_size := 0; shm_block := zero_block |}.
Proof.
  destruct (get_shm_logger_ftruncate_failure_aborts
              {| os_shm_open := 3; os_ftruncate := -1; os_mmap := 4096 |}
              (fresh_mapper shared_memory_ctor) fresh_world)
    as (w' & Hcall & Hvm & _ & Hshm & _); [done|done|done|].
  by exists w'.
Defined.

(** ** Descriptors *)

Lemma open_fds_emit evs w : open_fds (emit evs w) = foldl fd_step (open_fds w) evs.
Proof. unfold open_fds, emit; simpl. apply foldl_app. Qed.

Lemma remove_one_head fd l : remove_one fd (fd :: l) = l.
Proof. simpl. by rewrite bool_decide_eq_true_2. Qed.

Lemma open_fds_sys_shm_open w : open_fds (sys_shm_open w) = open_fds w.
Proof. reflexivity. Qed.

Lemma open_fds_sys_ftruncate w : open_fds (sys_ftruncate w) = open_fds w.
Proof. reflexivity. Qed.

Lemma open_fds_sys_mmap a w : open_fds (sys_mmap a w) = open_fds w.
Proof. reflexivity. Qed.

Lemma open_fds_sys_munmap a w : open_fds (sys_munmap a w) = open_fds w.
Proof. reflexivity. Qed.

Lemma open_fds_set_region b w : open_fds (set_region b w) = open_fds w.
Proof. reflexivity. Qed.

Ltac simpl_fds :=
  repeat first
    [ rewrite open_fds_emit | rewrite open_fds_sys_shm_open
    | rewrite open_fds_sys_ftruncate | rewrite open_fds_sys_mmap
    | rewrite open_fds_sys_munmap | rewrite open_fds_set_region ];
  cbn [foldl].

Lemma init_shm_block_fds o m w :
  open_fds (init_shm_block o m w).2 = open_fds w.
Proof.
  unfold init_shm_block.
  case_bool_decide as Hfd; simpl.
  { simpl_fds. simpl. by rewrite bool_decide_eq_true_2. }
  assert (Hopen : ∀ l, fd_step l (ev_shm_open (os_shm_open o)) = os_shm_open o :: l).
  { intros l. simpl. by rewrite bool_decide_eq_false_2. }
  case_bool_decide; simpl.
  { simpl_fds. rewrite Hopen. cbn [fd_step]. by rewrite remove_one_head. }
  case_bool_decide; simpl.
  { simpl_fds. rewrite Hopen. cbn [fd_step]. by rewrite remove_one_head. }
  unfold cas_initialized.
  destruct (initialized (region _)); [|destruct (payload_ctor m)];
    unfold placement_new; simpl; simpl_fds; rewrite Hopen; cbn [fd_step];
    by rewrite remove_one_head.
Qed.

Lemma get_shm_logger_fds o m w : open_fds (get_shm_logger o m w).2 = open_fds w.
Proof.
  unfold get_shm_logger. destruct (g_init_flag m); try done.
  pose proof (init_shm_block_fds o (set_once OnceRunning m) w) as Hfds.
  by destruct (init_shm_block _ _ _) as [[[] m'] w'].
Qed.

Lemma cleanup_shm_logger_fds m w : open_fds (cleanup_shm_logger m w).2 = open_fds w.
Proof.
  unfold cleanup_shm_logger. case_bool_decide; simpl; [|done]. by simpl_fds.
Qed.

(** X2. No call leaks a descriptor: over every sequence of
    [get_shm_logger] and [cleanup_shm_logger] calls, with any kernel
    answers (failures included), the descriptors open afterwards are those
    open before; whatever [shm_open] returned has been closed again. *)
Theorem no_descriptor_leak (cs : list Call) (p : Process) :
  open_fds (p_world (run_calls cs p)) = open_fds (p_world p).
Proof.
  revert p. induction cs as [|c cs IH]; intros p; simpl; [done|].
  rewrite IH. unfold run_call. destruct (p_alive p); [|done].
  destruct c as [k o|k]; destruct (p_mappers p !! k) as [m|]; try done.
  - pose proof (get_shm_logger_fds o m (p_world p)) as Hfds.
    by destruct (get_shm_logger o m (p_world p)) as [[out m'] w'].
  - pose proof (cleanup_shm_logger_fds m (p_world p)) as Hfds.
    by destruct (cleanup_shm_logger m (p_world p)) as [m' w'].
Qed.

(** ** References and [cleanup_shm_logger] *)

Lemma resolve_None w r :
  (∀ b, b ∈ vm w → ¬ in_mapping r b) → resolve w r = None.
Proof.
  intros Hnone. unfold resolve.
  destruct (list_find _ _) as [[i b]|] eqn:Hfind; [|done].
  apply list_find_Some in Hfind as (Hb & Hin & _).
  apply list_elem_of_lookup_2 in Hb. by destruct (Hnone b Hb).
Qed.

Lemma vm_ok_filter (P : Z → Prop) `{!∀ x, Decision (P x)} l :
  vm_ok l → vm_ok (filter P l).
Proof.
  induction l as [|a l IH]; simpl; [done|].
  intros (Hpos & Hdisj & Hl). rewrite filter_cons.
  destruct (decide (P a)); simpl; [|by apply IH].
  split_and!; [done| |by apply IH].
  rewrite Forall_forall in Hdisj. apply Forall_forall.
  intros b [_ Hb]%list_elem_of_filter. by apply Hdisj.
Qed.

(** X3. A reference returned by [get_shm_logger] is only good until
    [cleanup_shm_logger]: before, it resolves to the storage of the shared
    object; after, it resolves to nothing, and [log] through it touches
    unmapped memory. *)
Theorem reference_dangles_after_cleanup (mem : list Literal) o m w r m1 w1 who :
  get_shm_logger o m w = (Returns r, m1, w1) →
  vm_ok (vm w1) → g_block m1 ∈ vm w1 →
  resolve w1 r = Some storage_offset ∧
  resolve (cleanup_shm_logger m1 w1).2 r = None ∧
  ProcessLogger_log mem (cleanup_shm_logger m1 w1).2 r who = BadAccess.
Proof.
  intros (Hdone & Hblk & ->)%get_shm_logger_returns Hvm Hin.
  assert (Hnone : resolve (cleanup_shm_logger m1 w1).2
                    (g_block m1 + storage_offset) = None).
  { unfold cleanup_shm_logger. rewrite bool_decide_eq_true_2 by done. simpl.
    apply resolve_None. simpl. intros b [Hne Hb]%list_elem_of_filter Hmap.
    apply Hne. symmetry. eapply (vm_ok_disjoint _ _ _ _ Hvm Hin Hb); [|done].
    unfold in_mapping, storage_offset, sizeof_ShmBlock. lia. }
  split_and!; [by apply resolve_storage|done|].
  unfold ProcessLogger_log. by rewrite Hnone.
Qed.

Lemma reference_dangles_after_cleanup_witness :
  let mem := literals [fresh_mapper shared_memory_ctor] in
  let call := get_shm_logger os_a (fresh_mapper shared_memory_ctor) fresh_world in
  call.1.1 = Returns 4160 ∧
  ProcessLogger_log mem call.2 4160 "main" = Logged "main" 4160 "shared_memory" ∧
  ProcessLogger_log mem (cleanup_shm_logger call.1.2 call.2).2 4160 "main" = BadAccess.
Proof.
  intros mem call.
  destruct (reference_dangles_after_cleanup mem os_a (fresh_mapper shared_memory_ctor)
              fresh_world 4160 call.1.2 call.2 "main")
    as (_ & _ & Hbad); [reflexivity|by vm_compute|by left|].
  split_and!; [reflexivity|reflexivity|exact Hbad].
Defined.

(** X4. [cleanup_shm_logger] of one mapper removes only that mapper's
    mapping: any other live mapping still resolves to the storage of the
    shared object, the block is unchanged, and a second cleanup changes
    nothing. *)
Theorem cleanup_spares_other_mappings m w b :
  vm_ok (vm w) → b ∈ vm w → b ≠ g_block m →
  resolve (cleanup_shm_logger m w).2 (b + storage_offset) = Some storage_offset ∧
  region (cleanup_shm_logger m w).2 = region w ∧
  cleanup_shm_logger (cleanup_shm_logger m w).1 (cleanup_shm_logger m w).2 =
    cleanup_shm_logger m w.
Proof.
  intros Hvm Hb Hne. unfold cleanup_shm_logger.
  destruct (bool_decide (g_block m ≠ nullptr)) eqn:Hnull; simpl.
  - split_and!; [|done..].
    apply resolve_storage; simpl; [by apply vm_ok_filter|].
    by apply list_elem_of_filter.
  - rewrite Hnull. split_and!; [by apply resolve_storage|done..].
Qed.

Lemma cleanup_spares_other_mappings_witness :
  let w := (get_shm_logger os_b (fresh_mapper (Build (lit 24576 "B")))
              (get_shm_logger os_a (fresh_mapper (Build (lit 20480 "A"))) fresh_world).2).2 in
  let mA := (get_shm_logger os_a (fresh_mapper (Build (lit 20480 "A"))) fresh_world).1.2 in
  vm w = [8192; 4096]%Z ∧
  resolve (cleanup_shm_logger mA w).2 (8192 + storage_offset) = Some storage_offset ∧
  ProcessLogger_log [lit 20480 "A"; lit 24576 "B"] (cleanup_shm_logger mA w).2 8256 "libB"
    = Logged "libB" 8256 "A".
Proof.
  intros w mA.
  destruct (cleanup_spares_other_mappings mA w 8192) as (Hres & _ & _);
    [|by left|done|].
  { change (vm w) with [8192; 4096]%Z. simpl. unfold sizeof_ShmBlock.
    split_and!; try done; repeat constructor; lia. }
  split_and!; [reflexivity|exact Hres|reflexivity].
Defined.

(** ** The block is written once *)

Lemma run_call_flag_set c p :
  initialized (region (p_world p)) = true →
  region (p_world (run_call c p)) = region (p_world p) ∧
  constructions (p_world (run_call c p)) = constructions (p_world p).
Proof.
  intros Hflag. unfold run_call. destruct (p_alive p); [|done].
  destruct c as [k o|k]; destruct (p_mappers p !! k) as [m|]; try done.
  - destruct (get_shm_logger o m (p_world p)) as [[out m'] w'] eqn:Hcall.
    by apply get_shm_logger_flag_set in Hcall as (_ & ? & ?).
  - unfold cleanup_shm_logger. case_bool_decide; simpl; [|done].
    simpl_world. split; [done|]. unfold constructions; simpl. lia.
Qed.

(** X5. The block is written once: when the flag is set, no sequence of
    [get_shm_logger] and [cleanup_shm_logger] calls by any mappers, with
    any kernel answers, changes the flag or the payload or runs a
    constructor. *)
Theorem block_is_written_once (cs : list Call) (p : Process) :
  initialized (region (p_world p)) = true →
  region (p_world (run_calls cs p)) = region (p_world p) ∧
  constructions (p_world (run_calls cs p)) = constructions (p_world p).
Proof.
  revert p. induction cs as [|c cs IH]; intros p Hflag; simpl; [done|].
  destruct (run_call_flag_set c p Hflag) as [Hreg Hcnt].
  destruct (IH (run_call c p)) as [Hreg' Hcnt']; [by rewrite Hreg|].
  split; congruence.
Qed.

Lemma block_is_written_once_witness :
  let p := {| p_world :=
                (get_shm_logger os_a (fresh_mapper (Build (lit 20480 "first"))) fresh_world).2;
              p_mappers := [fresh_mapper (Build (lit 24576 "second"));
                            fresh_mapper (Build (lit 28672 "third"))];
              p_alive := true |} in
  let p' := run_calls [call_get 0 os_b; call_cleanup 0; call_get 1 os_c; call_get 0 os_a] p in
  storage (region (p_world p')) = Some {| tag_ := 20480 |} ∧
  constructions (p_world p') = 1.
Proof.
  intros p p'.
  destruct (block_is_written_once
              [call_get 0 os_b; call_cleanup 0; call_get 1 os_c; call_get 0 os_a] p)
    as [Hreg Hcnt]; [reflexivity|].
  fold p' in Hreg, Hcnt. by rewrite Hreg, Hcnt.
Defined.

(** ** How often the region is mapped *)

Lemma fresh_mappers_cons m ms : fresh_mappers (m :: ms) = fresh1 m + fresh_mappers ms.
Proof.
  unfold fresh_mappers, fresh1. rewrite filter_cons. by case_decide.
Qed.

Lemma fresh_mappers_insert ms k m m' :
  ms !! k = Some m →
  fresh_mappers (<[k:=m']> ms) + fresh1 m = fresh_mappers ms + fresh1 m'.
Proof.
  revert k. induction ms as [|m0 ms IH]; intros [|k]; simpl; try done.
  - intros [= ->]. rewrite !fresh_mappers_cons. lia.
  - intros Hk. rewrite !fresh_mappers_cons. specialize (IH _ Hk). lia.
Qed.

Lemma mappings_made_emit evs w :
  mappings_made (emit evs w) =
  mappings_made w + length (filter (λ e, is_mapping e = true) evs).
Proof. unfold mappings_made, emit; simpl. by rewrite filter_app, length_app. Qed.

Lemma mappings_made_sys_shm_open w : mappings_made (sys_shm_open w) = mappings_made w.
Proof. reflexivity. Qed.
Lemma mappings_made_sys_ftruncate w : mappings_made (sys_ftruncate w) = mappings_made w.
Proof. reflexivity. Qed.
Lemma mappings_made_sys_mmap a w : mappings_made (sys_mmap a w) = mappings_made w.
Proof. reflexivity. Qed.
Lemma mappings_made_sys_munmap a w : mappings_made (sys_munmap a w) = mappings_made w.
Proof. reflexivity. Qed.
Lemma mappings_made_set_region b w : mappings_made (set_region b w) = mappings_made w.
Proof. reflexivity. Qed.

Ltac simpl_maps :=
  repeat first
    [ rewrite mappings_made_emit | rewrite mappings_made_sys_shm_open
    | rewrite mappings_made_sys_ftruncate | rewrite mappings_made_sys_mmap
    | rewrite mappings_made_sys_munmap | rewrite mappings_made_set_region ].

Lemma get_shm_logger_maps o m w :
  nonthrowing (payload_ctor m) = true →
  mappings_made (get_shm_logger o m w).2 + fresh1 (get_shm_logger o m w).1.2
    ≤ mappings_made w + fresh1 m ∧
  payload_ctor (get_shm_logger o m w).1.2 = payload_ctor m.
Proof.
  intros Hctor. unfold get_shm_logger.
  destruct (g_init_flag m) eqn:Hflag; simpl; [|done..].
  assert (Hf : fresh1 m = 1) by (unfold fresh1; by rewrite Hflag).
  rewrite Hf. unfold init_shm_block.
  assert (Hrun : ∀ a f, fresh1 (set_g_block a (set_once f (set_once OnceRunning m)))
                         = fresh1 (set_once f m)) by done.
  case_bool_decide; simpl.
  { simpl_maps. simpl. unfold fresh1; simpl. split; [lia|done]. }
  case_bool_decide; simpl.
  { simpl_maps. simpl. unfold fresh1; simpl. split; [lia|done]. }
  case_bool_decide as Hmap; simpl.
  { simpl_maps. rewrite Hmap. simpl. unfold fresh1; simpl. split; [lia|done]. }
  assert (Hone : length (filter (λ e, is_mapping e = true)
                   [ev_mmap (os_shm_open o) (os_mmap o); ev_close (os_shm_open o)]) = 1).
  { rewrite filter_cons, decide_True; [done|]. simpl. by apply bool_decide_eq_true_2. }
  unfold cas_initialized, placement_new.
  destruct (initialized (region _)); simpl;
    [|destruct (payload_ctor m) eqn:Hc; [|done]; simpl];
    simpl_maps; rewrite Hone; simpl; unfold fresh1; simpl; split; (lia || done).
Qed.

Lemma run_call_maps c p :
  Forall (λ m, nonthrowing (payload_ctor m) = true) (p_mappers p) →
  mappings_made (p_world (run_call c p)) + fresh_mappers (p_mappers (run_call c p))
    ≤ mappings_made (p_world p) + fresh_mappers (p_mappers p) ∧
  Forall (λ m, nonthrowing (payload_ctor m) = true) (p_mappers (run_call c p)).
Proof.
  intros Hall. unfold run_call. destruct (p_alive p); [|done].
  destruct c as [k o|k]; destruct (p_mappers p !! k) as [m|] eqn:Hk; try done.
  - assert (Hm : nonthrowing (payload_ctor m) = true).
    { rewrite Forall_lookup in Hall. by eapply Hall. }
    destruct (get_shm_logger_maps o m (p_world p) Hm) as [Hle Hc].
    destruct (get_shm_logger o m (p_world p)) as [[out m'] w']; simpl in *.
    pose proof (fresh_mappers_insert _ _ _ m' Hk). split; [lia|].
    apply Forall_insert; [done|]. by rewrite Hc.
  - assert (Hm : nonthrowing (payload_ctor m) = true).
    { rewrite Forall_lookup in Hall. by eapply Hall. }
    unfold cleanup_shm_logger. case_bool_decide; simpl.
    + pose proof (fresh_mappers_insert _ _ _ (set_g_block nullptr m) Hk) as Hi.
      unfold fresh1 in Hi; simpl in Hi. simpl_maps. simpl.
      split; [lia|]. by apply Forall_insert.
    + by rewrite list_insert_id.
Qed.

(** X6. The region is mapped at most once per mapper: over every sequence
    of calls (with constructors that do not throw), the successful [mmap]
    calls made are at most as many as the mappers whose once-flag was
    untouched at the start; a mapper that has initialised never maps again,
    not even after [cleanup_shm_logger]. *)
Theorem region_mapped_at_most_once_per_mapper (cs : list Call) (p : Process) :
  Forall (λ m, nonthrowing (payload_ctor m) = true) (p_mappers p) →
  mappings_made (p_world (run_calls cs p)) + fresh_mappers (p_mappers (run_calls cs p))
    ≤ mappings_made (p_world p) + fresh_mappers (p_mappers p).
Proof.
  revert p. induction cs as [|c cs IH]; intros p Hall; simpl; [done|].
  destruct (run_call_maps c p Hall) as [Hle Hall'].
  specialize (IH _ Hall'). lia.
Qed.

Lemma region_mapped_at_most_once_per_mapper_witness :
  let p := {| p_world := fresh_world;
              p_mappers := [fresh_mapper (Build (lit 20480 "A"));
                            fresh_mapper (Build (lit 24576 "B"))];
              p_alive := true |} in
  let p' := run_calls [call_get 0 os_a; call_get 0 os_c; call_cleanup 0;
                       call_get 0 os_c; call_get 1 os_b; call_get 1 os_c] p in
  mappings_made (p_world p') = 2 ∧ fresh_mappers (p_mappers p') = 0 ∧
  mappings_made (p_world p') + fresh_mappers (p_mappers p') ≤ 0 + 2.
Proof.
  intros p p'. split_and!; [reflexivity..|].
  apply (region_mapped_at_most_once_per_mapper
           [call_get 0 os_a; call_get 0 os_c; call_cleanup 0;
            call_get 0 os_c; call_get 1 os_b; call_get 1 os_c] p).
  by repeat constructor.
Defined.

(** ** The first statement of [main]: [get_shm_logger().log("main")] *)

(** X7. [get_shm_logger().log(who)] by a mapper calling for the first
    time, with the kernel calls succeeding, in a process that holds the
    mapper's own tag string.  With the flag clear the mapper constructs and
    the line shows its own tag.  With the flag set the line shows whatever
    string the calling process has at the address the block holds: the
    first constructor's tag where that string is loaded; where the process
    has no string there, or the block holds no payload, the call reads
    memory that is not a string.  Either way the line carries the storage
    address of the new mapping. *)
Theorem first_call_logs_what_the_block_points_to
    (mem : list Literal) o m w (own : Literal) who :
  g_init_flag m = OnceFresh → payload_ctor m = Build own →
  read_string mem (lit_addr own) = Some (lit_text own) →
  (0 ≤ os_shm_open o)%Z → (0 ≤ os_ftruncate o)%Z →
  os_mmap o ≠ MAP_FAILED → mmap_plausible w o → vm_ok (vm w) →
  (get_shm_logger_log mem o m w who).1.1 =
    Some (if initialized (region w) then
            match storage (region w) ≫= (λ p, read_string mem (tag_ p)) with
            | Some tag => Logged who (os_mmap o + storage_offset) tag
            | None => BadAccess
            end
          else Logged who (os_mmap o + storage_offset) (lit_text own)) ∧
  g_block (get_shm_logger_log mem o m w who).1.2 = os_mmap o ∧
  g_init_flag (get_shm_logger_log mem o m w who).1.2 = OnceDone.
Proof.
  intros Hfresh Hctor Hown Hfd Hft Hmap [?|[Hpos Hdisj]] Hvm; [done|].
  unfold get_shm_logger_log, get_shm_logger, init_shm_block. rewrite Hfresh.
  rewrite !bool_decide_eq_false_2 by (done || lia).
  assert (Hvm' : ∀ w1, vm w1 = os_mmap o :: vm w →
    resolve w1 (os_mmap o + storage_offset) = Some storage_offset).
  { intros w1 Hw1. apply resolve_storage; rewrite Hw1; [by simpl|by left]. }
  unfold cas_initialized. simpl_world.
  destruct (initialized (region w)) eqn:Hflag; simpl.
  - unfold deref_storage; simpl.
    rewrite bool_decide_eq_false_2 by (unfold nullptr; lia). simpl.
    split; [|done]. f_equal.
    unfold ProcessLogger_log. rewrite Hvm' by done.
    rewrite bool_decide_eq_true_2 by done. simpl_world.
    by destruct (storage (region w)).
  - rewrite Hctor. unfold deref_storage; simpl.
    rewrite bool_decide_eq_false_2 by (unfold nullptr; lia). simpl.
    split; [|done]. f_equal.
    unfold ProcessLogger_log, placement_new. rewrite Hvm' by done.
    rewrite bool_decide_eq_true_2 by done. simpl_world.
    destruct (shm w); simpl; by rewrite Hown.
Qed.

(** [main] logs first and a plugin of the same process second; then [main]
    of a process started later, whose strings are elsewhere. *)
Lemma first_call_logs_what_the_block_points_to_witness :
  let mA := fresh_mapper (Build (lit 20480 "first")) in
  let mB := fresh_mapper (Build (lit 24576 "second")) in
  let mC := fresh_mapper (Build (lit 36864 "first")) in
  let wA := (get_shm_logger os_a mA fresh_world).2 in
  (get_shm_logger_log (literals [mA; mB]) os_a mA fresh_world "main").1.1 =
    Some (Logged "main" 4160 "first") ∧
  (get_shm_logger_log (literals [mA; mB]) os_b mB wA "libB").1.1 =
    Some (Logged "libB" 8256 "first") ∧
  (get_shm_logger_log (literals [mC]) os_a mC (later_process wA) "main").1.1 =
    Some BadAccess.
Proof.
  intros mA mB mC wA. split_and!.
  - apply (first_call_logs_what_the_block_points_to (literals [mA; mB]) os_a mA
             fresh_world (lit 20480 "first") "main"); try done.
    right. split; [done|constructor].
  - apply (first_call_logs_what_the_block_points_to (literals [mA; mB]) os_b mB
             wA (lit 24576 "second") "libB"); try done.
    right. split; [done|]. change (vm wA) with [4096%Z].
    constructor; [|constructor]. right. unfold sizeof_ShmBlock. simpl. lia.
  - apply (first_call_logs_what_the_block_points_to (literals [mC]) os_a mC
             (later_process wA) (lit 36864 "first") "main"); try done.
    right. split; [done|constructor].
Defined.

(** * More about concurrent callers *)

(** X8. At any moment at most one thread per mapper is inside
    [init_shm_block]. *)
Theorem init_shm_block_is_exclusive
    (ctors : list Constructor) (tm : list nat) (w0 : World) (s : System) :
  consistent w0 → vm_ok (vm w0) →
  rtc step (boot w0 ctors tm) s →
  ∀ i j ti tj,
    threads s !! i = Some ti → threads s !! j = Some tj →
    in_init (t_pc ti) = true → in_init (t_pc tj) = true →
    t_mapper ti = t_mapper tj → i = j.
Proof.
  intros Hcons Hvm Hrtc.
  assert (HInv : Inv s) by (eapply rtc_step_inv; [by apply boot_inv|done]).
  by destruct HInv.
Qed.

(** X9. Without [cleanup_shm_logger], no call ends on a null block
    pointer: a call that is over has aborted, has left by the constructor's
    exception, or has returned the storage address of its mapper's
    non-null, live mapping. *)
Theorem calls_never_end_on_null_block
    (ctors : list Constructor) (tm : list nat) (w0 : World) (s : System) :
  consistent w0 → vm_ok (vm w0) →
  rtc step (boot w0 ctors tm) s →
  ∀ i t out,
    threads s !! i = Some t → t_pc t = pc_exit out →
    out = Aborts ∨ out = Throws ∨
    ∃ m, mappers s !! t_mapper t = Some m ∧
         g_block m ≠ nullptr ∧ g_block m ∈ vm (world s) ∧
         out = Returns (g_block m + storage_offset).
Proof.
  intros Hcons Hvm Hrtc i t out Hi Hpc.
  assert (HInv : Inv s) by (eapply rtc_step_inv; [by apply boot_inv|done]).
  destruct out as [r| | | |]; [|exfalso|by left|by right; left|exfalso].
  - destruct (returned_ref _ _ _ _ HInv Hi Hpc) as (m & Hm & _ & -> & Hin & _).
    right; right. exists m. split_and!; try done.
    destruct HInv as [Hok _ _ _ _].
    pose proof (vm_ok_pos _ _ Hok Hin). unfold nullptr. lia.
  - destruct HInv as [_ Hth _ _ _].
    destruct (Hth _ _ Hi) as (m & _ & Hok); [by rewrite Hpc|].
    by rewrite Hpc in Hok.
  - destruct HInv as [_ Hth _ _ _].
    destruct (Hth _ _ Hi) as (m & _ & Hok); [by rewrite Hpc|].
    by rewrite Hpc in Hok.
Qed.

(** ** Nobody waits for ever in [call_once] *)

Lemma thread_step_enabled o w m pc :
  (pc = pc_call_once → g_init_flag m ≠ OnceRunning) →
  (∀ out, pc ≠ pc_exit out) →
  is_Some (thread_step o w m pc).
Proof.
  intros Hcall Hexit. destruct pc; simpl; try (repeat case_bool_decide; eauto).
  - destruct (g_init_flag m); eauto. by destruct Hcall.
  - destruct (cas_initialized w) as [[] ?]; eauto.
  - destruct (payload_ctor m); eauto.
  - by destruct (Hexit out).
Qed.

Lemma thread_step_leaves_init o w m pc w' m' pc' :
  thread_step o w m pc = Some (w', m', pc') →
  in_init pc = true →
  in_init pc' = true ∧ g_init_flag m' = g_init_flag m ∨
  pc' = pc_exit Aborts ∨
  g_init_flag m' ≠ OnceRunning.
Proof.
  destruct pc; simpl; try done.
  - case_bool_decide; intros [= <- <- <-]; auto.
  - case_bool_decide; intros [= <- <- <-]; auto.
  - case_bool_decide; intros [= <- <- <-]; auto.
  - intros [= <- <- <-]; auto.
  - destruct (cas_initialized w) as [[] ?]; intros [= <- <- <-]; auto.
  - destruct (payload_ctor m); intros [= <- <- <-]; simpl; auto.
  - intros [= <- <- <-]; simpl; auto.
Qed.

Lemma thread_step_outside_init o w m pc w' m' pc' :
  thread_step o w m pc = Some (w', m', pc') →
  in_init pc = false →
  m' = m ∧ in_init pc' = false ∨
  g_init_flag m ≠ OnceRunning ∧ in_init pc' = true.
Proof.
  destruct pc; simpl; try done.
  - destruct (g_init_flag m) eqn:Hflag; intros [= <- <- <-] || done; auto.
  - intros [= <- <- <-]; auto.
Qed.

Lemma sys_step_live i o s s' : Live s → sys_step i o s = Some s' → Live s'.
Proof.
  intros [Hrun Hmp]
    (t & m & w' & m' & pc' & Hhalt & _ & Hi & Hm & Hstep & ->)%sys_step_Some.
  assert (Hlt : t_mapper t < length (mappers s)) by by eapply lookup_lt_Some.
  assert (Hme : <[i:={| t_mapper := t_mapper t; t_pc := pc' |}]> (threads s) !! i
                = Some {| t_mapper := t_mapper t; t_pc := pc' |}).
  { apply list_lookup_insert_eq. by eapply lookup_lt_Some. }
  split; simpl.
  - intros k mk Hk Hrunning.
    destruct (decide (pc' = pc_exit Aborts)) as [->|Hna];
      [left; by apply bool_decide_eq_true_2|right].
    apply list_lookup_insert_Some in Hk as [(<- & <- & _)|[Hnek Hk]].
    + (* the mapper of the stepping thread *)
      destruct (in_init (t_pc t)) eqn:Hin.
      * destruct (thread_step_leaves_init _ _ _ _ _ _ _ Hstep Hin)
          as [[Hin' _]|[?|?]]; try done.
        by exists i, {| t_mapper := t_mapper t; t_pc := pc' |}.
      * destruct (thread_step_outside_init _ _ _ _ _ _ _ Hstep Hin)
          as [[-> Hin']|[_ Hin']].
        -- destruct (Hrun _ _ Hm Hrunning) as [?|(j & tj & Hj & Hmap & Hinj)];
             [congruence|].
           assert (i ≠ j) by (intros ->; congruence).
           exists j, tj. by rewrite list_lookup_insert_ne.
        -- by exists i, {| t_mapper := t_mapper t; t_pc := pc' |}.
    + destruct (Hrun _ _ Hk Hrunning) as [?|(j & tj & Hj & Hmap & Hinj)];
        [congruence|].
      assert (i ≠ j) by (intros ->; congruence).
      exists j, tj. by rewrite list_lookup_insert_ne.
  - intros j tj [(_ & <- & _)|[_ Hj]]%list_lookup_insert_Some; simpl;
      apply list_lookup_insert_is_Some; eauto.
Qed.

Lemma rtc_step_live s s' : Live s → rtc step s s' → Live s'.
Proof.
  intros Hlive Hrtc. induction Hrtc as [|s1 s2 s3 (i & o & Hstep) _ IH]; [done|].
  apply IH. by eapply sys_step_live.
Qed.

Lemma boot_live w ctors tm :
  Forall (λ k, k < length ctors) tm → Live (boot w ctors tm).
Proof.
  intros Htm. split; unfold boot; simpl.
  - intros k m. rewrite list_lookup_fmap. by intros (c & _ & ->)%fmap_Some.
  - intros i t. rewrite !list_lookup_fmap.
    intros (k & Hk & ->)%fmap_Some. simpl.
    rewrite Forall_lookup in Htm. specialize (Htm _ _ Hk).
    apply fmap_is_Some, lookup_lt_is_Some_2. done.
Qed.

(** X10. Nobody waits for ever in [std::call_once]: in every reachable
    state of a process that has not aborted and in which some call is not
    over, some thread can take a step, whatever the kernel answers. *)
Theorem no_caller_waits_for_ever
    (ctors : list Constructor) (tm : list nat) (w0 : World) (s : System) o :
  Forall (λ k, k < length ctors) tm →
  rtc step (boot w0 ctors tm) s →
  halted s = false →
  ¬ Forall (λ t, is_finished t = true) (threads s) →
  mmap_plausible (world s) o →
  ∃ i s', sys_step i o s = Some s'.
Proof.
  intros Htm Hrtc Hhalt Hunfinished Hplaus.
  assert (Hlive : Live s) by (eapply rtc_step_live; [by apply boot_live|done]).
  destruct Hlive as [Hrun Hmp].
  apply not_Forall_Exists in Hunfinished; [|apply _].
  apply Exists_exists in Hunfinished as (t & Ht & Hnf).
  apply list_elem_of_lookup in Ht as [i Hi].
  destruct (Hmp _ _ Hi) as [m Hm].
  assert (Hgo : ∀ j tj mj,
    threads s !! j = Some tj → mappers s !! t_mapper tj = Some mj →
    (t_pc tj = pc_call_once → g_init_flag mj ≠ OnceRunning) →
    (∀ out, t_pc tj ≠ pc_exit out) →
    ∃ s', sys_step j o s = Some s').
  { intros j tj mj Hj Hmj Hcall Hexit. unfold sys_step.
    rewrite Hhalt, Hj, Hmj.
    rewrite bool_decide_eq_true_2 by (by destruct (t_pc tj)).
    destruct (thread_step_enabled o (world s) mj (t_pc tj) Hcall Hexit)
      as [[[w' m'] pc'] ->]. eauto. }
  assert (Hexit : ∀ out, t_pc t ≠ pc_exit out).
  { intros out Hpc. apply Hnf. unfold is_finished. by rewrite Hpc. }
  destruct (decide (t_pc t = pc_call_once ∧ g_init_flag m = OnceRunning))
    as [[Hpc Hrunning]|Hfree].
  - destruct (Hrun _ _ Hm Hrunning) as [?|(j & tj & Hj & Hmap & Hin)];
      [congruence|].
    exists j. eapply (Hgo j tj m); try done.
    + by rewrite Hmap.
    + intros Hpcj. by rewrite Hpcj in Hin.
    + intros out Hpcj. by rewrite Hpcj in Hin.
  - exists i. eapply (Hgo i t m); try done.
    intros Hpc Hrunning. by apply Hfree.
Qed.

(** Thread 0 is inside [init_shm_block]; threads 1 and 2 wait. *)
Lemma init_shm_block_is_exclusive_witness :
  ∃ s, run_schedule (turns 5 0 os_a)
         (boot fresh_world [shared_memory_ctor] (replicate 3 0)) = Some s ∧
       (t_pc <$> threads s) = [pc_cas; pc_call_once; pc_call_once] ∧
       sys_step 1 os_a s = None ∧ sys_step 2 os_a s = None ∧
       (∀ j tj, threads s !! j = Some tj → in_init (t_pc tj) = true → 0 = j).
Proof.
  eexists. split; [vm_compute; reflexivity|].
  split_and!; [reflexivity..|].
  intros j tj Hj Hin.
  match type of Hj with threads ?s !! _ = _ =>
    eapply (init_shm_block_is_exclusive [shared_memory_ctor] (replicate 3 0)
              fresh_world s)
  end; [by left|exact I| |reflexivity|exact Hj|done|done|].
  - apply (run_schedule_rtc (turns 5 0 os_a)). vm_compute. reflexivity.
  - destruct j as [|[|[|j]]]; by simplify_eq/=.
Defined.

Lemma calls_never_end_on_null_block_witness :
  ∃ s, run_schedule schedule_two_mappers
         (boot fresh_world [Build (lit 20480 "first"); Build (lit 24576 "second")]
            [0; 1; 0]) = Some s ∧
       ∃ m, mappers s !! 1 = Some m ∧ g_block m ≠ nullptr ∧
            g_block m ∈ vm (world s) ∧
            Returns 8256 = Returns (g_block m + storage_offset).
Proof.
  eexists. split; [vm_compute; reflexivity|].
  match goal with |- context [world ?s] =>
    pose proof (calls_never_end_on_null_block
                  [Build (lit 20480 "first"); Build (lit 24576 "second")] [0; 1; 0] fresh_world s
                  ltac:(by left) I) as Hend
  end.
  destruct (Hend ltac:(apply (run_schedule_rtc schedule_two_mappers);
                       vm_compute; reflexivity)
              1 {| t_mapper := 1; t_pc := pc_exit (Returns 8256) |}
              (Returns 8256) eq_refl eq_refl)
    as [?|[?|Hm]]; [done|done|exact Hm].
Defined.

Lemma no_caller_waits_for_ever_witness :
  ∃ s, run_schedule (turns 5 0 os_a)
         (boot fresh_world [shared_memory_ctor] (replicate 3 0)) = Some s ∧
       sys_step 1 os_b s = None ∧
       ∃ i s', sys_step i os_b s = Some s'.
Proof.
  eexists. split; [vm_compute; reflexivity|]. split; [reflexivity|].
  eapply (no_caller_waits_for_ever [shared_memory_ctor] (replicate 3 0)
            fresh_world _ os_b).
  - by repeat constructor.
  - apply (run_schedule_rtc (turns 5 0 os_a)). vm_compute. reflexivity.
  - reflexivity.
  - intros Hall. by apply Forall_cons_1 in Hall as [? _].
  - right. split; [done|]. constructor; [|constructor]. right.
    unfold sizeof_ShmBlock. simpl. lia.
Defined.

(** * The [dlsym] variant *)

Section Dlsym.
Import DlsymDefault.

Implicit Types (ld : Loader) (st : State) (img : Image).

Lemma resolve_get_logger_value ld st fn st' :
  resolve_get_logger ld st = (Value fn, st') →
  fn ≠ 0%Z ∧ g_cached_fn st' = fn.
Proof.
  unfold resolve_get_logger. repeat case_bool_decide; by intros [= <- <-].
Qed.

(** X11. [resolve_get_logger] caches: once it has returned a pointer,
    every later call returns the same pointer and changes nothing (no
    [dlsym], no output), whatever the loader would answer then. *)
Theorem resolve_get_logger_caches ld ld' st fn st' :
  resolve_get_logger ld st = (Value fn, st') →
  resolve_get_logger ld' st' = (Value fn, st').
Proof.
  intros [Hfn Hcache]%resolve_get_logger_value.
  unfold resolve_get_logger. rewrite bool_decide_eq_true_2 by congruence.
  by rewrite Hcache.
Qed.

Lemma resolve_get_logger_caches_witness :
  let st := {| g_cached_fn := 0; trace := [] |} in
  let st' := {| g_cached_fn := 4198400;
                trace := [ev_dlsym 4198400; ev_cout_resolved 4198400] |} in
  resolve_get_logger {| ld_sym := 4198400; ld_error := None |} st = (Value 4198400%Z, st') ∧
  resolve_get_logger {| ld_sym := 0; ld_error := Some "undefined symbol" |} st'
    = (Value 4198400%Z, st').
Proof.
  intros st st'. split; [reflexivity|].
  by apply (resolve_get_logger_caches {| ld_sym := 4198400; ld_error := None |} _ st).
Defined.

(** X12. When [dlsym] finds nothing, [resolve_get_logger] throws
    ["dlsym failed: "] followed by the text of [dlerror] (or
    ["unknown error"]); the cache stays empty, so the next call asks
    [dlsym] again and, if the symbol is there by then, caches and returns
    it. *)
Theorem resolve_get_logger_failure_is_retried ld ld' st :
  g_cached_fn st = 0%Z → ld_sym ld = 0%Z → ld_sym ld' ≠ 0%Z →
  ∃ st1,
    resolve_get_logger ld st =
      (Raise ("dlsym failed: " +:+ default "unknown error" (ld_error ld)), st1) ∧
    g_cached_fn st1 = 0%Z ∧
    trace st1 = trace st ++ [ev_dlsym 0; ev_dlerror] ∧
    ∃ st2,
      resolve_get_logger ld' st1 = (Value (ld_sym ld'), st2) ∧
      g_cached_fn st2 = ld_sym ld' ∧
      trace st2 = trace st1 ++ [ev_dlsym (ld_sym ld'); ev_cout_resolved (ld_sym ld')].
Proof.
  intros Hcache Hsym Hsym'. unfold resolve_get_logger.
  rewrite Hcache, Hsym. simpl.
  eexists. split_and!; [by destruct (ld_error ld)|done| |].
  { simpl. by rewrite <- app_assoc. }
  simpl. rewrite Hcache. simpl. rewrite bool_decide_eq_false_2 by done.
  eexists. split_and!; [done..|]. simpl. by rewrite <- !app_assoc.
Qed.

Lemma resolve_get_logger_failure_is_retried_witness :
  ∃ st1,
    resolve_get_logger {| ld_sym := 0; ld_error := None |}
      {| g_cached_fn := 0; trace := [] |} =
      (Raise "dlsym failed: unknown error", st1) ∧
    g_cached_fn st1 = 0%Z ∧
    ∃ st2,
      resolve_get_logger {| ld_sym := 4198400; ld_error := None |} st1
        = (Value 4198400%Z, st2) ∧
      g_cached_fn st2 = 4198400%Z.
Proof.
  destruct (resolve_get_logger_failure_is_retried
              {| ld_sym := 0; ld_error := None |}
              {| ld_sym := 4198400; ld_error := None |}
              {| g_cached_fn := 0; trace := [] |})
    as (st1 & H1 & Hc1 & _ & st2 & H2 & Hc2 & _); [done..|].
  exists st1. split_and!; [exact H1|exact Hc1|]. by exists st2.
Defined.

(** ** Plugin entries *)

Lemma log_lines_emit evs st :
  log_lines (emit evs st) = log_lines st ++ filter (λ e, is_log e = true) evs.
Proof. unfold log_lines, emit; simpl. apply filter_app. Qed.

Lemma dlsym_calls_emit evs st :
  dlsym_calls (emit evs st) =
  dlsym_calls st + length (filter (λ e, is_dlsym e = true) evs).
Proof. unfold dlsym_calls, emit; simpl. by rewrite filter_app, length_app. Qed.

(** With the getter cached, an entry only logs. *)
Lemma lib_entry_cached who img ld st :
  fn_get_process_logger img ≠ 0%Z →
  g_cached_fn st = fn_get_process_logger img →
  lib_entry who img ld st =
    (Value (), emit [ev_cout_log who (addr_g_logger img) (g_logger_tag img)] st).
Proof.
  intros Hfn Hcache.
  unfold lib_entry, get_logger_via_dlsym, resolve_get_logger.
  rewrite bool_decide_eq_true_2 by congruence.
  unfold call_pointer. rewrite bool_decide_eq_true_2 by done.
  unfold ProcessLogger_log. by rewrite bool_decide_eq_true_2.
Qed.

Lemma run_entries_cached img es st :
  fn_get_process_logger img ≠ 0%Z →
  g_cached_fn st = fn_get_process_logger img →
  ∃ st', run_entries img es st = (Value (), st') ∧
         g_cached_fn st' = fn_get_process_logger img ∧
         log_lines st' = log_lines st ++
           ((λ e, ev_cout_log e.1 (addr_g_logger img) (g_logger_tag img)) <$> es) ∧
         dlsym_calls st' = dlsym_calls st.
Proof.
  intros Hfn. revert st. induction es as [|[who ld] es IH]; intros st Hcache; simpl.
  - exists st. by rewrite app_nil_r.
  - rewrite lib_entry_cached by done.
    destruct (IH (emit [ev_cout_log who (addr_g_logger img) (g_logger_tag img)] st))
      as (st' & Hrun & Hc & Hlog & Hcalls); [done|].
    exists st'. split_and!; [done..| |].
    + rewrite Hlog, log_lines_emit. by rewrite <- app_assoc.
    + rewrite Hcalls, dlsym_calls_emit. simpl. lia.
Qed.

(** X13. Plugin entries called one after the other, the first finding
    [get_process_logger] of the main executable: every entry logs the same
    object (address and tag of [g_logger]), and [dlsym] is called once,
    whatever the loader would answer later. *)
Theorem plugin_entries_share_one_logger img who ld es st :
  g_cached_fn st = 0%Z →
  fn_get_process_logger img ≠ 0%Z →
  ld_sym ld = fn_get_process_logger img →
  ∃ st', run_entries img ((who, ld) :: es) st = (Value (), st') ∧
         log_lines st' = log_lines st ++
           ((λ e, ev_cout_log e.1 (addr_g_logger img) (g_logger_tag img))
              <$> (who, ld) :: es) ∧
         dlsym_calls st' = dlsym_calls st + 1.
Proof.
  intros Hcache Hfn Hsym. simpl.
  unfold lib_entry, get_logger_via_dlsym, resolve_get_logger.
  rewrite Hcache, Hsym. simpl. rewrite bool_decide_eq_false_2 by done.
  unfold call_pointer. rewrite bool_decide_eq_true_2 by done.
  unfold ProcessLogger_log. rewrite bool_decide_eq_true_2 by done.
  match goal with |- context [run_entries img es ?st1] =>
    destruct (run_entries_cached img es st1 Hfn) as (st' & Hrun & _ & Hlog & Hcalls)
  end; [done|].
  exists st'. split_and!; [done| |].
  - rewrite Hlog. unfold log_lines; simpl. rewrite !filter_app; simpl.
    by rewrite !app_nil_r, <- app_assoc.
  - rewrite Hcalls. unfold dlsym_calls; simpl. rewrite !filter_app, !length_app.
    simpl. lia.
Qed.

Lemma plugin_entries_share_one_logger_witness :
  let img := {| fn_get_process_logger := 4198400; addr_g_logger := 4210688;
                g_logger_tag := "dlsym_default" |} in
  let good := {| ld_sym := 4198400; ld_error := None |} in
  let gone := {| ld_sym := 0; ld_error := Some "undefined symbol" |} in
  ∃ st', run_entries img [("libA", good); ("libB", gone); ("libC", gone)]
           {| g_cached_fn := 0; trace := [] |} = (Value (), st') ∧
         log_lines st' =
           [ev_cout_log "libA" 4210688 "dlsym_default";
            ev_cout_log "libB" 4210688 "dlsym_default";
            ev_cout_log "libC" 4210688 "dlsym_default"] ∧
         dlsym_calls st' = 1.
Proof.
  intros img good gone.
  destruct (plugin_entries_share_one_logger img "libA" good
              [("libB", gone); ("libC", gone)] {| g_cached_fn := 0; trace := [] |})
    as (st' & Hrun & Hlog & Hcalls); [done..|].
  by exists st'.
Defined.

End Dlsym.

(** * More about the lock-file guard *)

(** X14. A complete run of the guard leaves the lock as it found it: a
    refused instance does not disturb the holder, a successful one has
    released the lock when it exits, so an instance started afterwards fares
    as if the first had never run. *)
Theorem guard_leaves_lock_table
    (pid pid' : Z) (o o' : SingletonDaemon.OS) (k : SingletonDaemon.Kernel) :
  SingletonDaemon.kernel_after (SingletonDaemon.main pid o k) = k ∧
  SingletonDaemon.exit_code
    (SingletonDaemon.main pid' o' (SingletonDaemon.kernel_after (SingletonDaemon.main pid o k))) =
  SingletonDaemon.exit_code (SingletonDaemon.main pid' o' k).
Proof.
  assert (Hk : SingletonDaemon.kernel_after (SingletonDaemon.main pid o k) = k).
  { unfold SingletonDaemon.main, SingletonDaemon.flock_ex_nb.
    case_bool_decide; [done|].
    destruct (SingletonDaemon.os_flock_fault o); simpl; [done|].
    destruct k as [[h|]]; simpl; done. }
  by rewrite Hk.
Qed.
